(** * Route playback and interpolation of the vehicle tracker

    A shallow embedding of [src/VehicleMap.jsx]: the route loader
    [fetchRouteData], the bearing helper [getRotationAngle], and the React
    component [VehicleMap] read as a state machine whose events are the
    completion of the load effect, the two buttons and the interval tick.

    JavaScript numbers are kept abstract behind the interface [JsNumber]; it
    is instantiated with the kernel's binary64 floats (what the browser
    computes) and with the real numbers (the arithmetic the formulas denote). *)

From Stdlib Require Import String Ascii.
From Stdlib Require Import ZArith List Bool Lia.
From Stdlib Require Import Floats.
From Stdlib Require Import Reals Lra.
Import ListNotations.

Set Implicit Arguments.
#[local] Set Warnings "-inexact-float".

(** ** Numbers *)

(** The operations the component applies to numbers: the four arithmetic
    operators, the conversion of an integer (literals, the step counter) and
    ToBoolean, which [||] uses. *)
Class JsNumber (num : Type) : Type := {
  num_add : num -> num -> num;
  num_sub : num -> num -> num;
  num_mul : num -> num -> num;
  num_div : num -> num -> num;
  num_of_Z : Z -> num;
  num_truthy : num -> bool
}.

(** [Math.atan2] and [Math.PI]. *)
Class JsMath (num : Type) : Type := {
  Math_atan2 : num -> num -> num;
  Math_PI : num
}.

Declare Scope js_scope.
Delimit Scope js_scope with js.
Infix "+" := num_add : js_scope.
Infix "-" := num_sub : js_scope.
Infix "*" := num_mul : js_scope.
Infix "/" := num_div : js_scope.

(** *** binary64 *)

Definition float_of_Z (z : Z) : float :=
  match z with
  | Z0 => PrimFloat.zero
  | Zpos _ => PrimFloat.of_uint63 (Uint63.of_Z z)
  | Zneg p => PrimFloat.opp (PrimFloat.of_uint63 (Uint63.of_Z (Zpos p)))
  end.

(** ToBoolean of a number is false for [+0], [-0] and [NaN]. *)
Definition float_truthy (x : float) : bool :=
  negb (PrimFloat.is_zero x || PrimFloat.is_nan x).

#[export] Instance float_JsNumber : JsNumber float := {|
  num_add := PrimFloat.add;
  num_sub := PrimFloat.sub;
  num_mul := PrimFloat.mul;
  num_div := PrimFloat.div;
  num_of_Z := float_of_Z;
  num_truthy := float_truthy
|}.

(** *** Real numbers *)

Definition R_truthy (x : R) : bool :=
  if Req_dec_T x 0 then false else true.

#[export] Instance R_JsNumber : JsNumber R := {|
  num_add := Rplus;
  num_sub := Rminus;
  num_mul := Rmult;
  num_div := Rdiv;
  num_of_Z := IZR;
  num_truthy := R_truthy
|}.

(** [Math.atan2 y x] on the reals: the angle of the point [(x, y)], with the
    value [0] at the origin that ECMAScript gives [atan2(+0, +0)]. *)
Definition R_atan2 (y x : R) : R :=
  if Rlt_dec 0 x then atan (y / x)
  else if Rlt_dec x 0 then
    (if Rlt_dec y 0 then atan (y / x) - PI else atan (y / x) + PI)%R
  else if Rlt_dec 0 y then (PI / 2)%R
  else if Rlt_dec y 0 then (- PI / 2)%R
  else 0%R.

#[export] Instance R_JsMath : JsMath R := {|
  Math_atan2 := R_atan2;
  Math_PI := PI
|}.

(** *** [Math.atan2] on binary64 *)

(** ECMAScript fixes the value of [Math.atan2] at zeros, infinities and NaN
    and leaves the rest to the implementation.  This is the function as the
    engines compute it, the [atan2] and [atan] of fdlibm ([e_atan2.c],
    [s_atan.c]) that V8 and SpiderMonkey ship; its values at zeros are those
    the standard fixes. *)
Module Libm.
Local Open Scope float_scope.

(** The words of [atanhi], [atanlo] and [aT], written as hexadecimal
    literals. *)
Definition atanhi0 : float := 0x1.dac670561bb4fp-2.
Definition atanhi1 : float := 0x1.921fb54442d18p-1.
Definition atanhi2 : float := 0x1.f730bd281f69bp-1.
Definition atanhi3 : float := 0x1.921fb54442d18p+0.
Definition atanlo0 : float := 0x1.a2b7f222f65e2p-56.
Definition atanlo1 : float := 0x1.1a62633145c07p-55.
Definition atanlo2 : float := 0x1.007887af0cbbdp-56.
Definition atanlo3 : float := 0x1.1a62633145c07p-54.
Definition aT0 : float := 0x1.555555555550dp-2.
Definition aT1 : float := -0x1.999999998ebc4p-3.
Definition aT2 : float := 0x1.24924920083ffp-3.
Definition aT3 : float := -0x1.c71c6fe231671p-4.
Definition aT4 : float := 0x1.745cdc54c206ep-4.
Definition aT5 : float := -0x1.3b0f2af749a6dp-4.
Definition aT6 : float := 0x1.10d66a0d03d51p-4.
Definition aT7 : float := -0x1.dde2d52defd9ap-5.
Definition aT8 : float := 0x1.97b4b24760debp-5.
Definition aT9 : float := -0x1.2b4442c6a6c2fp-5.
Definition aT10 : float := 0x1.0ad3ae322da11p-6.

(** [Math.PI] and the constants of [atan2]. *)
Definition PI : float := 0x1.921fb54442d18p+1.
Definition pi_o_2 : float := 0x1.921fb54442d18p+0.
Definition pi_o_4 : float := 0x1.921fb54442d18p-1.
Definition pi_lo : float := 0x1.1a62633145c07p-53.
Definition tiny : float := 1e-300.

(** The odd polynomial [x * (s1 + s2)] of the reduced argument. *)
Definition poly (x : float) : float :=
  let z := x * x in
  let w := z * z in
  let s1 := z * (aT0 + w * (aT2 + w * (aT4 + w * (aT6 + w * (aT8 + w * aT10))))) in
  let s2 := w * (aT1 + w * (aT3 + w * (aT5 + w * (aT7 + w * aT9)))) in
  x * (s1 + s2).

(** [atanhi[id] - ((x * (s1 + s2) - atanlo[id]) - x)], with the sign of the
    argument. *)
Definition reduced (hi lo x : float) (negative : bool) : float :=
  let z := hi - ((poly x - lo) - x) in
  if negative then - z else z.

(** [atan]: the comparisons of the high word with [0x44100000],
    [0x3fdc0000], [0x3e200000], [0x3ff30000], [0x3fe60000] and [0x40038000]
    are comparisons of [|x|] with [2^66], [0.4375], [2^-29], [1.1875],
    [0.6875] and [2.4375]. *)
Definition atan (x : float) : float :=
  let a := abs x in
  if is_nan x then x + x
  else if 0x1p+66 <=? a then
    (if 0 <? x then atanhi3 + atanlo3 else - atanhi3 - atanlo3)
  else if a <? 0.4375 then
    (if a <? 0x1p-29 then x else x - poly x)
  else
    let negative := x <? 0 in
    if a <? 1.1875 then
      (if a <? 0.6875
       then reduced atanhi0 atanlo0 ((2 * a - 1) / (2 + a)) negative
       else reduced atanhi1 atanlo1 ((a - 1) / (a + 1)) negative)
    else
      (if a <? 2.4375
       then reduced atanhi2 atanlo2 ((a - 1.5) / (1 + 1.5 * a)) negative
       else reduced atanhi3 atanlo3 (-1 / a) negative).

(** The high word of [|x|], which [atan2] uses to bound the exponent of
    [y / x]. *)
Definition highWord (x : float) : Z :=
  match Prim2SF x with
  | S754_zero _ => 0
  | S754_infinity _ => 0x7ff00000
  | S754_nan => 0x7ff80000
  | S754_finite _ m e =>
      let m := Zpos m in
      if (m <? 2 ^ 52)%Z then (m / 2 ^ 32)%Z
      else ((e + 1075) * 2 ^ 20 + (m - 2 ^ 52) / 2 ^ 32)%Z
  end.

(** The last [switch] of [atan2], on the signs of [x] and [y]. *)
Definition quadrant (z : float) (ny nx : bool) : float :=
  match nx, ny with
  | false, false => z
  | false, true => - z
  | true, false => PI - (z - pi_lo)
  | true, true => (z - pi_lo) - PI
  end.

(** [atan2 y x], case by case as the library has it: NaN, [x = 1], a zero
    [y], a zero [x], an infinite [x], an infinite [y], then the quotient. *)
Definition atan2 (y x : float) : float :=
  let ny := get_sign y in
  let nx := get_sign x in
  if is_nan x || is_nan y then x + y
  else if x =? 1 then atan y
  else if is_zero y then
    (if nx then (if ny then - PI - tiny else PI + tiny) else y)
  else if is_zero x then
    (if ny then - pi_o_2 - tiny else pi_o_2 + tiny)
  else if is_infinity x then
    (if is_infinity y then
       match nx, ny with
       | false, false => pi_o_4 + tiny
       | false, true => - pi_o_4 - tiny
       | true, false => 3 * pi_o_4 + tiny
       | true, true => -3 * pi_o_4 - tiny
       end
     else
       match nx, ny with
       | false, false => 0
       | false, true => - 0
       | true, false => PI + tiny
       | true, true => - PI - tiny
       end)
  else if is_infinity y then
    (if ny then - pi_o_2 - tiny else pi_o_2 + tiny)
  else
    let k := Z.shiftr (highWord y - highWord x) 20 in
    let z := if (60 <? k)%Z then pi_o_2 + 0.5 * pi_lo
             else if nx && (k <? -60)%Z then 0
             else atan (abs (y / x)) in
    quadrant z ny nx.
End Libm.

#[export] Instance float_JsMath : JsMath float := {|
  Math_atan2 := Libm.atan2;
  Math_PI := Libm.PI
|}.

(** Whether a coordinate goes from [+0] to [-0], the one way for two equal
    finite numbers to have the difference [-0]. *)
Definition fromPosToNegZero (a b : float) : bool :=
  PrimFloat.is_zero a && negb (PrimFloat.get_sign a)
  && PrimFloat.is_zero b && PrimFloat.get_sign b.

(** ** The component *)

Section Model.
Context {num : Type} `{JsNumber num}.

Local Open Scope js_scope.

(** A decimal literal [m * 10^-k], such as [17.4 = dec 174 1]; on binary64
    the quotient of two exactly represented integers is the correctly
    rounded value of the literal. *)
Definition dec (m : Z) (k : nat) : num :=
  num_of_Z m / num_of_Z (10 ^ Z.of_nat k).

Definition INITIAL_CENTER : num * num := (dec 174 1, dec 78495 3).

(** *** Route data *)

Record Waypoint : Type := {
  lat : num;
  lng : num;
  timestamp : num
}.

(** A record of [dummy-route.json]. *)
Record RawPoint : Type := {
  latitude : num;
  longitude : num;
  raw_timestamp : num
}.

(** What [response.json()] resolves to: a JSON array, whose elements are
    records or [null], or a JSON value that is no array (an object, a
    number, a string), on which [data.map] is not a function. *)
Inductive Payload : Type :=
| PArray (elems : list (option RawPoint))
| PNotArray.

(** The run of the two awaits of the primary path. *)
Inductive Primary : Type :=
| FetchRejected
| JsonRejected
| JsonResolved (data : Payload).

Definition toWaypoint (p : RawPoint) : Waypoint :=
  {| lat := latitude p; lng := longitude p; timestamp := raw_timestamp p |}.

(** [data.map((p) => ({lat: p.latitude, ...}))]: reading a property of
    [null] throws, which ends the map. *)
Fixpoint mapRecords (elems : list (option RawPoint)) : option (list Waypoint) :=
  match elems with
  | [] => Some []
  | None :: _ => None
  | Some p :: rest =>
      match mapRecords rest with
      | Some ws => Some (toWaypoint p :: ws)
      | None => None
      end
  end.

(** The [try] block: [None] when it throws. *)
Definition primaryRoute (r : Primary) : option (list Waypoint) :=
  match r with
  | FetchRejected => None
  | JsonRejected => None
  | JsonResolved PNotArray => None
  | JsonResolved (PArray elems) => mapRecords elems
  end.

Definition encoded : string :=
  "svu_GotssPp@`@n@r@rAjA`@f@x@r@l@`@f@pA`A`@l@p@v@f@v@p@r@x@b@dA|@`@l@j@".

(** [decoded.map(([lat, lng]) => ({lat, lng, timestamp: Date.now()}))];
    [clock i] is what the [i]-th call of [Date.now()] returns. *)
Fixpoint stamp (clock : nat -> num) (i : nat) (pts : list (num * num)) : list Waypoint :=
  match pts with
  | [] => []
  | (la, ln) :: rest =>
      {| lat := la; lng := ln; timestamp := clock i |} :: stamp clock (S i) rest
  end.

Section Fetch.
(** [polyline.decode] of the [@mapbox/polyline] dependency. *)
Variable decode : string -> list (num * num).

Definition fallbackRoute (clock : nat -> num) : list Waypoint :=
  stamp clock 0 (decode encoded).

Definition fetchRouteData (r : Primary) (clock : nat -> num) : list Waypoint :=
  match primaryRoute r with
  | Some route => route
  | None => fallbackRoute clock
  end.
End Fetch.

(** *** State *)

(** [interpolatedPos] holds an object [{lat, lng}] or, after the load, a
    two-element array. *)
Inductive Pos : Type :=
| PosObj (la ln : num)
| PosArr (e0 e1 : num).

(** [interpolatedPos?.lat] and [interpolatedPos?.lng]; [None] is [undefined]. *)
Definition pos_lat (p : Pos) : option num :=
  match p with PosObj la _ => Some la | PosArr _ _ => None end.
Definition pos_lng (p : Pos) : option num :=
  match p with PosObj _ ln => Some ln | PosArr _ _ => None end.

(** The interval armed by the animation effect, with what its callback
    closes over: [routeData], [start], [end] and the counter [step]. *)
Record Timer : Type := {
  t_route : list Waypoint;
  t_start : Waypoint;
  t_end : Waypoint;
  t_step : Z
}.

(** The four [useState] cells, the interval of [intervalRef], and whether
    the promise of the load effect has settled. *)
Record State : Type := {
  routeData : list Waypoint;
  currentIndex : nat;
  interpolatedPos : Pos;
  isPlaying : bool;
  interval : option Timer;
  loaded : bool
}.

Definition initialState : State := {|
  routeData := [];
  currentIndex := 0;
  interpolatedPos := PosObj (fst INITIAL_CENTER) (snd INITIAL_CENTER);
  isPlaying := false;
  interval := None;
  loaded := false
|}.

Definition steps : Z := 20.

(** [start + ((end - start) * step) / steps], at a number [step]. *)
Definition interpolateAt (a b step : num) : num :=
  a + ((b - a) * step) / num_of_Z steps.

(** The same at the value [k] of the counter. *)
Definition interpolate (a b : num) (k : Z) : num :=
  interpolateAt a b (num_of_Z k).

(** *** Effects *)

(** The body of the animation effect: the interval it arms, if any. *)
Definition animationEffect (st : State) : option Timer :=
  if negb (isPlaying st) || (length (routeData st) <? 2)%nat then None
  else
    match nth_error (routeData st) (currentIndex st),
          nth_error (routeData st) (currentIndex st + 1) with
    | Some s, Some e =>
        Some {| t_route := routeData st; t_start := s; t_end := e; t_step := 0 |}
    | _, _ => None
    end.

(** The dependency array [[isPlaying, currentIndex, routeData]] compared
    between two renders; [routeData] is replaced by the load only. *)
Definition depsChanged (old new : State) (routeReplaced : bool) : bool :=
  negb (Bool.eqb (isPlaying old) (isPlaying new))
  || negb (currentIndex old =? currentIndex new)%nat
  || routeReplaced.

Definition withInterval (st : State) (t : option Timer) : State := {|
  routeData := routeData st;
  currentIndex := currentIndex st;
  interpolatedPos := interpolatedPos st;
  isPlaying := isPlaying st;
  interval := t;
  loaded := loaded st
|}.

(** The render after a batch of state updates: when a dependency changed
    the cleanup clears the interval and the effect runs again. *)
Definition commit (old new : State) (routeReplaced : bool) : State :=
  if depsChanged old new routeReplaced
  then withInterval new (animationEffect new)
  else new.

(** *** Events *)

(** [setRouteData(data); setInterpolatedPos([data[0]?.lat || ..., ...])] *)
Definition load (data : list Waypoint) (st : State) : State :=
  let e0 := match data with
            | w :: _ => if num_truthy (lat w) then lat w else fst INITIAL_CENTER
            | [] => fst INITIAL_CENTER
            end in
  let e1 := match data with
            | w :: _ => if num_truthy (lng w) then lng w else snd INITIAL_CENTER
            | [] => snd INITIAL_CENTER
            end in
  commit st {|
    routeData := data;
    currentIndex := currentIndex st;
    interpolatedPos := PosArr e0 e1;
    isPlaying := isPlaying st;
    interval := interval st;
    loaded := true
  |} true.

Definition togglePlay (st : State) : State :=
  commit st {|
    routeData := routeData st;
    currentIndex := currentIndex st;
    interpolatedPos := interpolatedPos st;
    isPlaying := negb (isPlaying st);
    interval := interval st;
    loaded := loaded st
  |} false.

Definition resetSimulation (st : State) : State :=
  commit st {|
    routeData := routeData st;
    currentIndex := 0;
    interpolatedPos :=
      match routeData st with
      | w :: _ => PosObj (lat w) (lng w)
      | [] => interpolatedPos st
      end;
    isPlaying := false;
    interval := interval st;
    loaded := loaded st
  |} false.

(** The updater [(prev) => prev + 1 < routeData.length - 1 ? prev + 1 : prev]. *)
Definition advanceIndex (route : list Waypoint) (prev : nat) : nat :=
  if (Z.of_nat prev + 1 <? Z.of_nat (length route) - 1)%Z
  then (prev + 1)%nat else prev.

(** One run of the interval callback; without an interval nothing fires. *)
Definition tick (st : State) : State :=
  match interval st with
  | None => st
  | Some t =>
      let step := (t_step t + 1)%Z in
      let la := interpolate (lat (t_start t)) (lat (t_end t)) step in
      let ln := interpolate (lng (t_start t)) (lng (t_end t)) step in
      let finished := (step >=? steps)%Z in
      commit st {|
        routeData := routeData st;
        currentIndex :=
          if finished then advanceIndex (t_route t) (currentIndex st)
          else currentIndex st;
        interpolatedPos := PosObj la ln;
        isPlaying := isPlaying st;
        interval :=
          Some {| t_route := t_route t; t_start := t_start t; t_end := t_end t;
                  t_step := if finished then 0%Z else step |};
        loaded := loaded st
      |} false
  end.

Inductive Event : Type :=
| Load (data : list Waypoint)
| TogglePlay
| Reset
| Tick.

Definition step (ev : Event) (st : State) : State :=
  match ev with
  | Load data => load data st
  | TogglePlay => togglePlay st
  | Reset => resetSimulation st
  | Tick => tick st
  end.

(** The load effect has an empty dependency array: it completes once. *)
Definition enabled (ev : Event) (st : State) : Prop :=
  match ev with
  | Load _ => loaded st = false
  | _ => True
  end.

Inductive reachable : State -> Prop :=
| reach_init : reachable initialState
| reach_step : forall st ev,
    reachable st -> enabled ev st -> reachable (step ev st).

Fixpoint run (evs : list Event) (st : State) : State :=
  match evs with
  | [] => st
  | ev :: rest => run rest (step ev st)
  end.

Definition ticks (n : nat) (st : State) : State := Nat.iter n tick st.

(** *** Rendering *)

(** The guard around [<Marker>]. *)
Definition markerRendered (st : State) : bool :=
  (0 <? length (routeData st))%nat
  && match pos_lat (interpolatedPos st) with Some _ => true | None => false end
  && match pos_lng (interpolatedPos st) with Some _ => true | None => false end.

(** The segment the playback state designates, as the effect reads it. *)
Definition segment (route : list Waypoint) (i : nat) : option (Waypoint * Waypoint) :=
  match nth_error route i, nth_error route (i + 1) with
  | Some s, Some e => Some (s, e)
  | _, _ => None
  end.

(** The position the callback stores at counter value [k] on segment [i]. *)
Definition position (route : list Waypoint) (i : nat) (k : Z) : option Pos :=
  match segment route i with
  | Some (s, e) =>
      Some (PosObj (interpolate (lat s) (lat e) k) (interpolate (lng s) (lng e) k))
  | None => None
  end.

(** The counter of the armed interval; a new interval starts at [0]. *)
Definition progressStep (st : State) : Z :=
  match interval st with
  | Some t => t_step t
  | None => 0%Z
  end.

End Model.

Arguments Waypoint num : clear implicits.
Arguments RawPoint num : clear implicits.
Arguments Payload num : clear implicits.
Arguments Primary num : clear implicits.
Arguments Pos num : clear implicits.
Arguments Timer num : clear implicits.
Arguments State num : clear implicits.
Arguments Event num : clear implicits.

(** ** Marker rotation *)

Section Rotation.
Context {num : Type} `{JsNumber num} `{JsMath num}.

Local Open Scope js_scope.

Definition getRotationAngle (prev next : Waypoint num) : num :=
  let dx := lng next - lng prev in
  let dy := lat next - lat prev in
  (Math_atan2 dx dy * num_of_Z 180) / Math_PI.

(** The rotation effect, as a function of whether the marker is mounted
    ([markerRef.current]) and of the angle the marker holds ([None] before
    the first [setRotationAngle]); it returns the angle the marker holds
    afterwards. *)
Definition rotationEffect (mounted : bool) (route : list (Waypoint num))
    (index : nat) (angle : option num) : option num :=
  if negb mounted || (index =? 0)%nat || (length route <=? index)%nat
  then angle
  else
    match nth_error route (index - 1), nth_error route index with
    | Some prev, Some next => Some (getRotationAngle prev next)
    | _, _ => angle
    end.
End Rotation.

(** ** The encoded polyline format *)

(** The fallback route is an encoded polyline: each coordinate is a zig-zag
    encoded difference to the previous point, cut into 5-bit chunks, least
    significant first, each chunk offset by 63 and flagged with [0x20] when
    another follows. *)
Module Polyline.

Definition charCodes (s : string) : list Z :=
  map (fun a => Z.of_N (N_of_ascii a)) (list_ascii_of_string s).

(** The inner [do ... while (byte >= 0x20)] loop; past the end of the
    string the chunk contributes nothing and ends the loop. *)
Fixpoint readChunks (cs : list Z) (shift result : Z) : Z * list Z :=
  match cs with
  | [] => (result, [])
  | c :: rest =>
      let byte := (c - 63)%Z in
      let result := (result + Z.land byte 31 * shift)%Z in
      if (byte >=? 32)%Z then readChunks rest (shift * 32)%Z result
      else (result, rest)
  end.

Definition unzigzag (result : Z) : Z :=
  if Z.odd result then ((- result - 1) / 2)%Z else (result / 2)%Z.

(** The outer [while (index < str.length)] loop over integer coordinates;
    every round consumes a character, so the length of the string is
    enough fuel. *)
Fixpoint decodeLoop (fuel : nat) (cs : list Z) (la ln : Z) : list (Z * Z) :=
  match fuel with
  | O => []
  | S fuel' =>
      match cs with
      | [] => []
      | _ :: _ =>
          let (r1, cs1) := readChunks cs 1 0 in
          let (r2, cs2) := readChunks cs1 1 0 in
          let la' := (la + unzigzag r1)%Z in
          let ln' := (ln + unzigzag r2)%Z in
          (la', ln') :: decodeLoop fuel' cs2 la' ln'
      end
  end.

Definition decodeInts (s : string) : list (Z * Z) :=
  decodeLoop (String.length s) (charCodes s) 0 0.

Definition factor : Z := 100000.

(** Modelled from the spec: [polyline.decode] belongs to the
    [@mapbox/polyline] dependency, which is not among the sources; this is
    the standard polyline decoding at precision 5 that the spec names as the
    fallback format. *)
Definition decode {num : Type} `{JsNumber num} (s : string) : list (num * num) :=
  map (fun p : Z * Z =>
         (num_div (num_of_Z (fst p)) (num_of_Z factor),
          num_div (num_of_Z (snd p)) (num_of_Z factor)))
      (decodeInts s).

End Polyline.

(** ** Derived notions *)

Section Notions.
Context {num : Type} `{JsNumber num}.

Implicit Types (st : State num) (t : Timer num) (route : list (Waypoint num)).

(** What an armed interval closes over agrees with the state it was armed
    in, and its counter stays below [steps] between two callbacks. *)
Definition timerOk st t : Prop :=
  isPlaying st = true
  /\ t_route t = routeData st
  /\ nth_error (routeData st) (currentIndex st) = Some (t_start t)
  /\ nth_error (routeData st) (currentIndex st + 1) = Some (t_end t)
  /\ (0 <= t_step t < steps)%Z.

Definition indexOk st : Prop :=
  currentIndex st = 0 \/ currentIndex st + 2 <= length (routeData st).

Record Inv st : Prop := {
  inv_timer : forall t, interval st = Some t -> timerOk st t;
  inv_index : indexOk st;
  inv_unloaded : loaded st = false -> routeData st = []
}.

(** [segmentIndex] within [[0, len(route) - 2]]. *)
Definition inRange st : Prop :=
  (0 <= Z.of_nat (currentIndex st) <= Z.of_nat (length (routeData st)) - 2)%Z.

(** The state while the interval armed on segment [i], from [s] to [e],
    has counted [k] callbacks. *)
Definition playingAt route (l : bool) (i : nat) (k : Z) (pos : Pos num)
    (s e : Waypoint num) : State num := {|
  routeData := route;
  currentIndex := i;
  interpolatedPos := pos;
  isPlaying := true;
  interval := Some {| t_route := route; t_start := s; t_end := e; t_step := k |};
  loaded := l
|}.

(** The position stored when the counter reaches [k] between [s] and [e]. *)
Definition posAt (s e : Waypoint num) (k : Z) : Pos num :=
  PosObj (interpolate (lat s) (lat e) k) (interpolate (lng s) (lng e) k).

Fixpoint noReset (evs : list (Event num)) : bool :=
  match evs with
  | [] => true
  | Reset :: _ => false
  | _ :: rest => noReset rest
  end.

Definition waypoint (la ln : num) : Waypoint num :=
  {| lat := la; lng := ln; timestamp := num_of_Z 0 |}.

End Notions.

(** ** The stepwise component *)

(** [src/unnamed/part_000], the component without interpolation: the marker
    sits on [routeData[currentIndex]], the interval moves the index by one
    every two seconds, and the rotation effect inlines the expression of
    [getRotationAngle]. *)
Module Stepwise.
Section Model.
Context {num : Type}.

Record State : Type := {
  routeData : list (Waypoint num);
  currentIndex : nat;
  isPlaying : bool;
  interval : bool;
  loaded : bool
}.

Definition initialState : State := {|
  routeData := [];
  currentIndex := 0;
  isPlaying := false;
  interval := false;
  loaded := false
|}.

(** [isPlaying && routeData.length > 0 && currentIndex < routeData.length - 1]:
    whether the effect arms the interval. *)
Definition animationEffect (st : State) : bool :=
  isPlaying st
  && (0 <? length (routeData st))%nat
  && (Z.of_nat (currentIndex st) <? Z.of_nat (length (routeData st)) - 1)%Z.

Definition depsChanged (old new : State) (routeReplaced : bool) : bool :=
  negb (Bool.eqb (isPlaying old) (isPlaying new))
  || negb (currentIndex old =? currentIndex new)%nat
  || routeReplaced.

Definition commit (old new : State) (routeReplaced : bool) : State :=
  if depsChanged old new routeReplaced
  then {| routeData := routeData new; currentIndex := currentIndex new;
          isPlaying := isPlaying new; interval := animationEffect new;
          loaded := loaded new |}
  else new.

Definition load (data : list (Waypoint num)) (st : State) : State :=
  commit st {| routeData := data; currentIndex := currentIndex st;
               isPlaying := isPlaying st; interval := interval st;
               loaded := true |} true.

Definition togglePlay (st : State) : State :=
  commit st {| routeData := routeData st; currentIndex := currentIndex st;
               isPlaying := negb (isPlaying st); interval := interval st;
               loaded := loaded st |} false.

Definition resetSimulation (st : State) : State :=
  commit st {| routeData := routeData st; currentIndex := 0;
               isPlaying := false; interval := interval st;
               loaded := loaded st |} false.

(** The callback [setCurrentIndex((prev) => prev + 1)]. *)
Definition tick (st : State) : State :=
  if interval st
  then commit st {| routeData := routeData st; currentIndex := currentIndex st + 1;
                    isPlaying := isPlaying st; interval := interval st;
                    loaded := loaded st |} false
  else st.

(** [routeData[currentIndex] || routeData[0]] *)
Definition currentPosition (st : State) : option (Waypoint num) :=
  match nth_error (routeData st) (currentIndex st) with
  | Some w => Some w
  | None => nth_error (routeData st) 0
  end.

Inductive Event : Type :=
| Load (data : list (Waypoint num))
| TogglePlay
| Reset
| Tick.

Definition step (ev : Event) (st : State) : State :=
  match ev with
  | Load data => load data st
  | TogglePlay => togglePlay st
  | Reset => resetSimulation st
  | Tick => tick st
  end.

Definition enabled (ev : Event) (st : State) : Prop :=
  match ev with
  | Load _ => loaded st = false
  | _ => True
  end.

Inductive reachable : State -> Prop :=
| reach_init : reachable initialState
| reach_step : forall st ev,
    reachable st -> enabled ev st -> reachable (step ev st).

Definition ticks (n : nat) (st : State) : State := Nat.iter n tick st.

(** The state while playing at waypoint [i]. *)
Definition playing (route : list (Waypoint num)) (l : bool) (i : nat) : State := {|
  routeData := route;
  currentIndex := i;
  isPlaying := true;
  interval := (0 <? length route)%nat
              && (Z.of_nat i <? Z.of_nat (length route) - 1)%Z;
  loaded := l
|}.

End Model.

Arguments State num : clear implicits.
Arguments Event num : clear implicits.

End Stepwise.

(** ** Sample data *)

Section Samples.
Context {num : Type} `{JsNumber num}.

(** The route [[(17.40, 78.49), (17.41, 78.50)]]. *)
Definition sampleRoute : list (Waypoint num) :=
  [waypoint (dec 1740 2) (dec 7849 2); waypoint (dec 1741 2) (dec 7850 2)].

(** A route across small coordinates, [[(0.2, 0.3), (0.9, 0.9)]]. *)
Definition coastRoute : list (Waypoint num) :=
  [waypoint (dec 2 1) (dec 3 1); waypoint (dec 9 1) (dec 9 1)].

Definition sampleLoaded : State num := load sampleRoute initialState.

Definition sampleStarted : State num := togglePlay sampleLoaded.

Definition sampleTicked : State num :=
  step Tick (step TogglePlay (step (Load sampleRoute) initialState)).

Definition origin : Waypoint num := waypoint (num_of_Z 0) (num_of_Z 0).

(** A clock that reads the same millisecond at every call. *)
Definition frozenClock (i : nat) : num := num_of_Z 1700000000000.

End Samples.

(** ** What the component renders *)

Section Presentation.
Context {num : Type} `{JsNumber num}.

(** [routeData.map((p) => [p.lat, p.lng])], the positions of the gray line. *)
Definition fullPath (st : State num) : list (num * num) :=
  map (fun p => (lat p, lng p)) (routeData st).

(** [routeData.slice(0, currentIndex + 1).map((p) => [p.lat, p.lng])], the
    positions of the blue line. *)
Definition traveledPath (st : State num) : list (num * num) :=
  map (fun p => (lat p, lng p)) (firstn (currentIndex st + 1) (routeData st)).

(** The two numbers of the readout [Point: {currentIndex + 1} / {routeData.length}]. *)
Definition pointReadout (st : State num) : nat * nat :=
  (currentIndex st + 1, length (routeData st)).

End Presentation.

Section RotationRun.
Context {num : Type} `{JsNumber num} `{JsMath num}.

(** A run of the rotation effect after the render of [st]: the marker is
    mounted when that render drew it. *)
Definition rotationAfter (st : State num) (angle : option num) : option num :=
  rotationEffect (markerRendered st) (routeData st) (currentIndex st) angle.

End RotationRun.

Section StepwiseSamples.
Context {num : Type} `{JsNumber num}.

Definition stepwiseTicked : Stepwise.State num :=
  Stepwise.step Stepwise.Tick
    (Stepwise.step Stepwise.TogglePlay
       (Stepwise.step (Stepwise.Load sampleRoute) Stepwise.initialState)).

Definition stepwiseLoaded : Stepwise.State num :=
  Stepwise.load sampleRoute Stepwise.initialState.

(** In the stepwise component an armed interval has a next waypoint to
    move to, and the index is within the route. *)
Definition stepwiseOk (st : Stepwise.State num) : Prop :=
  (Stepwise.interval st = true ->
   Stepwise.currentIndex st + 1 < length (Stepwise.routeData st))
  /\ (Stepwise.currentIndex st = 0
      \/ Stepwise.currentIndex st < length (Stepwise.routeData st))
  /\ (Stepwise.loaded st = false -> Stepwise.routeData st = []).

End StepwiseSamples.

(** ** The formula of the specification *)

Section SpecFormula.
Context {num : Type} `{JsNumber num}.

Local Open Scope js_scope.

(** The linear interpolation as the specification writes it,
    [start + (end - start) * progress]. *)
Definition lerp (a b p : num) : num := a + (b - a) * p.

(** A route on which the vehicle stands still between its second and third
    records: same coordinates, a later timestamp. *)
Definition idleRoute : list (Waypoint num) :=
  [ {| lat := dec 1740 2; lng := dec 7849 2; timestamp := num_of_Z 1000 |};
    {| lat := dec 1741 2; lng := dec 7850 2; timestamp := num_of_Z 2000 |};
    {| lat := dec 1741 2; lng := dec 7850 2; timestamp := num_of_Z 3000 |};
    {| lat := dec 1742 2; lng := dec 7851 2; timestamp := num_of_Z 4000 |} ].

Definition idleStarted : State num := togglePlay (load idleRoute initialState).

(** The sample route played to its end, then paused: the final segment
    with its progress complete. *)
Definition samplePausedAtEnd : State num := togglePlay (ticks 20 sampleStarted).

End SpecFormula.

(** ** Properties *)

Section Invariants.
Context {num : Type} `{JsNumber num}.

Implicit Types (st : State num) (t : Timer num) (route : list (Waypoint num)).

Lemma animationEffect_some st t :
  animationEffect st = Some t ->
  isPlaying st = true
  /\ t_route t = routeData st
  /\ nth_error (routeData st) (currentIndex st) = Some (t_start t)
  /\ nth_error (routeData st) (currentIndex st + 1) = Some (t_end t)
  /\ t_step t = 0%Z.
Proof.
  unfold animationEffect.
  destruct (isPlaying st); simpl; [|discriminate].
  destruct (length (routeData st) <? 2); [discriminate|].
  destruct (nth_error (routeData st) (currentIndex st)) as [s|]; [|discriminate].
  destruct (nth_error (routeData st) (currentIndex st + 1)) as [e|]; [|discriminate].
  intros [= <-]; simpl; auto.
Qed.

Lemma animationEffect_stopped st :
  isPlaying st = false -> animationEffect st = None.
Proof. unfold animationEffect; intros ->; reflexivity. Qed.

Lemma animationEffect_short st :
  length (routeData st) < 2 -> animationEffect st = None.
Proof.
  intros Hlen; unfold animationEffect.
  apply Nat.ltb_lt in Hlen; rewrite Hlen, orb_true_r; reflexivity.
Qed.

Lemma animationEffect_withInterval st o :
  animationEffect (withInterval st o) = animationEffect st.
Proof. reflexivity. Qed.

Lemma timerOk_effect st t :
  animationEffect st = Some t -> timerOk (withInterval st (Some t)) t.
Proof.
  intros Heff; apply animationEffect_some in Heff.
  destruct Heff as (Hp & Hr & Hs & He & Hk).
  unfold timerOk; simpl; rewrite Hk; unfold steps; repeat split; auto; lia.
Qed.

Lemma advanceIndex_cases route prev :
  (advanceIndex route prev = prev + 1 /\ prev + 2 < length route)
  \/ (advanceIndex route prev = prev /\ length route <= prev + 2).
Proof.
  unfold advanceIndex.
  destruct (Z.ltb_spec (Z.of_nat prev + 1) (Z.of_nat (length route) - 1));
    [left | right]; split; auto; lia.
Qed.

Lemma advanceIndex_ge route prev : prev <= advanceIndex route prev.
Proof. destruct (advanceIndex_cases route prev) as [[-> _]|[-> _]]; lia. Qed.

Lemma Inv_initial : Inv initialState.
Proof.
  split; simpl; [discriminate | left; reflexivity | reflexivity].
Qed.

Lemma Inv_load data st :
  Inv st -> loaded st = false -> Inv (load data st).
Proof.
  intros [Ht Hi Hu] Hl.
  pose proof (Hu Hl) as Hroute.
  assert (Hidx : currentIndex st = 0).
  { destruct Hi as [Hi|Hi]; [exact Hi|]. rewrite Hroute in Hi; simpl in Hi; lia. }
  unfold load, commit, depsChanged; rewrite orb_true_r.
  split; simpl.
  - intros t Heff. apply (timerOk_effect _ Heff).
  - left; exact Hidx.
  - discriminate.
Qed.

Lemma Inv_togglePlay st : Inv st -> Inv (togglePlay st).
Proof.
  intros [Ht Hi Hu].
  unfold togglePlay, commit, depsChanged; simpl.
  replace (Bool.eqb (isPlaying st) (negb (isPlaying st))) with false
    by (destruct (isPlaying st); reflexivity).
  simpl. split; simpl; auto.
  intros t Heff. apply (timerOk_effect _ Heff).
Qed.

Lemma Inv_resetSimulation st : Inv st -> Inv (resetSimulation st).
Proof.
  intros [Ht Hi Hu].
  unfold resetSimulation, commit.
  match goal with |- Inv (if ?c then _ else _) => destruct c eqn:Hdeps end.
  - split; simpl; auto.
    + rewrite animationEffect_stopped by reflexivity; discriminate.
    + left; reflexivity.
  - split; simpl; auto.
    + intros t Hsome. destruct (Ht t Hsome) as (Hp & _).
      unfold depsChanged in Hdeps; simpl in Hdeps.
      rewrite Hp in Hdeps; simpl in Hdeps; discriminate.
    + left; reflexivity.
Qed.

Lemma Inv_tick st : Inv st -> Inv (tick st).
Proof.
  intros [Ht Hi Hu].
  unfold tick. destruct (interval st) as [t|] eqn:Hint; [|split; auto; rewrite Hint; auto].
  destruct (Ht t eq_refl) as (Hp & Hr & Hs & He & Hk).
  assert (Hlen : currentIndex st + 2 <= length (routeData st)).
  { assert (currentIndex st + 1 < length (routeData st))
      by (apply nth_error_Some; rewrite He; discriminate).
    lia. }
  unfold commit.
  match goal with |- Inv (if ?c then _ else _) => destruct c eqn:Hdeps end.
  - split; simpl; auto.
    + intros t' Heff. apply (timerOk_effect _ Heff).
    + right; simpl. destruct (_ >=? _)%Z; [|exact Hlen].
      rewrite Hr.
      destruct (advanceIndex_cases (routeData st) (currentIndex st))
        as [[-> ?]|[-> ?]]; lia.
  - unfold depsChanged in Hdeps; simpl in Hdeps.
    rewrite orb_false_r in Hdeps.
    apply orb_false_elim in Hdeps as [_ Hsame].
    apply negb_false_iff, Nat.eqb_eq in Hsame.
    split; simpl; auto.
    + intros t' [= <-]. unfold timerOk; simpl.
      rewrite <- Hsame. repeat split; auto.
      * destruct (Z.geb_spec (t_step t + 1) steps); lia.
      * destruct (Z.geb_spec (t_step t + 1) steps); unfold steps in *; lia.
    + right; simpl. rewrite <- Hsame. exact Hlen.
Qed.

Lemma Inv_step ev st : Inv st -> enabled ev st -> Inv (step ev st).
Proof.
  destruct ev; simpl; intros Hinv Hen.
  - apply Inv_load; assumption.
  - apply Inv_togglePlay; assumption.
  - apply Inv_resetSimulation; assumption.
  - apply Inv_tick; assumption.
Qed.

Lemma reachable_Inv st : reachable st -> Inv st.
Proof.
  induction 1 as [|st ev _ IH Hen]; [apply Inv_initial | apply Inv_step; assumption].
Qed.

End Invariants.

(** ** Playing a segment *)

Section Playback.
Context {num : Type} `{JsNumber num}.

Implicit Types (st : State num) (route : list (Waypoint num)) (pos : Pos num).
Implicit Types (s e d : Waypoint num).

Lemma ticks_S n st : ticks (S n) st = tick (ticks n st).
Proof. reflexivity. Qed.

Lemma ticks_add n m st : ticks (n + m) st = ticks n (ticks m st).
Proof. unfold ticks; apply Nat.iter_add. Qed.

(** A callback below the last one of a segment moves the marker and counts. *)
Lemma tick_counting route l i k pos s e :
  (k + 1 < steps)%Z ->
  tick (playingAt route l i k pos s e)
  = playingAt route l i (k + 1) (posAt s e (k + 1)) s e.
Proof.
  intros Hk. unfold tick, playingAt; simpl.
  destruct (Z.geb_spec (k + 1) steps) as [Hge|_]; [lia|].
  unfold commit, depsChanged; simpl.
  rewrite Nat.eqb_refl; reflexivity.
Qed.

(** The last callback of a segment that has a successor re-arms the
    interval on the next segment. *)
Lemma tick_finish_advance route l i k pos s e e2 :
  (steps <= k + 1)%Z ->
  nth_error route (i + 1) = Some e ->
  nth_error route (i + 2) = Some e2 ->
  tick (playingAt route l i k pos s e)
  = playingAt route l (i + 1) 0 (posAt s e (k + 1)) e e2.
Proof.
  intros Hk He He2.
  assert (Hlen : i + 2 < length route)
    by (apply nth_error_Some; rewrite He2; discriminate).
  unfold tick, playingAt; simpl.
  destruct (Z.geb_spec (k + 1) steps) as [_|Hlt]; [|lia].
  destruct (advanceIndex_cases route i) as [[-> _]|[_ Hle]]; [|lia].
  unfold commit, depsChanged; simpl.
  replace (i =? i + 1) with false by (symmetry; apply Nat.eqb_neq; lia).
  simpl. unfold animationEffect; simpl.
  replace (length route <? 2) with false by (symmetry; apply Nat.ltb_ge; lia).
  rewrite He. replace (i + 1 + 1) with (i + 2) by lia. rewrite He2.
  reflexivity.
Qed.

(** The last callback of the last segment keeps the interval armed on the
    same segment and starts its counter again. *)
Lemma tick_finish_stay route l i k pos s e :
  (steps <= k + 1)%Z ->
  length route <= i + 2 ->
  tick (playingAt route l i k pos s e)
  = playingAt route l i 0 (posAt s e (k + 1)) s e.
Proof.
  intros Hk Hlen.
  unfold tick, playingAt; simpl.
  destruct (Z.geb_spec (k + 1) steps) as [_|Hlt]; [|lia].
  destruct (advanceIndex_cases route i) as [[_ Hlt]|[-> _]]; [lia|].
  unfold commit, depsChanged; simpl.
  rewrite Nat.eqb_refl; reflexivity.
Qed.

Lemma ticks_counting route l i pos s e n :
  (Z.of_nat (S n) < steps)%Z ->
  ticks (S n) (playingAt route l i 0 pos s e)
  = playingAt route l i (Z.of_nat (S n)) (posAt s e (Z.of_nat (S n))) s e.
Proof.
  induction n as [|n IH]; intros Hn.
  - rewrite ticks_S; simpl ticks. apply tick_counting; lia.
  - rewrite ticks_S, IH by lia.
    rewrite tick_counting by lia.
    replace (Z.of_nat (S n) + 1)%Z with (Z.of_nat (S (S n))) by lia.
    reflexivity.
Qed.

Lemma segment_advance route l i pos s e e2 :
  nth_error route (i + 1) = Some e ->
  nth_error route (i + 2) = Some e2 ->
  ticks 20 (playingAt route l i 0 pos s e)
  = playingAt route l (i + 1) 0 (posAt s e 20) e e2.
Proof.
  intros He He2.
  rewrite ticks_S, ticks_counting by (unfold steps; lia).
  rewrite tick_finish_advance with (e2 := e2);
    [reflexivity | unfold steps; lia | assumption | assumption].
Qed.

Lemma segment_stay route l i pos s e :
  length route <= i + 2 ->
  ticks 20 (playingAt route l i 0 pos s e)
  = playingAt route l i 0 (posAt s e 20) s e.
Proof.
  intros Hlen.
  rewrite ticks_S, ticks_counting by (unfold steps; lia).
  rewrite tick_finish_stay by (unfold steps; lia).
  reflexivity.
Qed.

(** Start on a stopped state whose current segment exists arms the
    interval on that segment. *)
Lemma togglePlay_arms st s e :
  isPlaying st = false ->
  nth_error (routeData st) (currentIndex st) = Some s ->
  nth_error (routeData st) (currentIndex st + 1) = Some e ->
  togglePlay st
  = playingAt (routeData st) (loaded st) (currentIndex st) 0
      (interpolatedPos st) s e.
Proof.
  intros Hp Hs He.
  assert (Hlen : currentIndex st + 1 < length (routeData st))
    by (apply nth_error_Some; rewrite He; discriminate).
  unfold togglePlay, commit, depsChanged; simpl.
  rewrite Hp; simpl. unfold animationEffect; simpl.
  replace (length (routeData st) <? 2) with false
    by (symmetry; apply Nat.ltb_ge; lia).
  rewrite Hs, He. reflexivity.
Qed.

(** After [20 * j] callbacks from the start of the route the interval is
    armed on segment [j]. *)
Lemma ticks_segments route l pos d j :
  j + 2 <= length route ->
  ticks (20 * j) (playingAt route l 0 0 pos (nth 0 route d) (nth 1 route d))
  = playingAt route l j 0
      (match j with
       | O => pos
       | S j' => posAt (nth j' route d) (nth j route d) 20
       end)
      (nth j route d) (nth (j + 1) route d).
Proof.
  induction j as [|j IH]; intros Hlen.
  - reflexivity.
  - replace (20 * S j) with (20 + 20 * j) by lia.
    rewrite ticks_add, IH by lia.
    rewrite segment_advance with (e2 := nth (j + 2) route d).
    + replace (j + 1) with (S j) by lia.
      replace (j + 2) with (S j + 1) by lia. reflexivity.
    + apply nth_error_nth'; lia.
    + apply nth_error_nth'; lia.
Qed.

(** After [20 * (N - 1)] callbacks the marker is where the last callback
    of the last segment put it, and the interval is armed on that segment
    with its counter back at [0]. *)
Lemma ticks_route route l pos d :
  2 <= length route ->
  ticks (20 * (length route - 1))
    (playingAt route l 0 0 pos (nth 0 route d) (nth 1 route d))
  = playingAt route l (length route - 2) 0
      (posAt (nth (length route - 2) route d) (nth (length route - 1) route d) 20)
      (nth (length route - 2) route d) (nth (length route - 1) route d).
Proof.
  intros Hlen.
  replace (20 * (length route - 1)) with (20 + 20 * (length route - 2)) by lia.
  rewrite ticks_add, ticks_segments by lia.
  replace (length route - 2 + 1) with (length route - 1) by lia.
  apply segment_stay; lia.
Qed.

End Playback.

(** ** The index of the current segment *)

Section Index.
Context {num : Type} `{JsNumber num}.

Implicit Types (st : State num) (route : list (Waypoint num)).

Lemma routeData_tick st : routeData (tick st) = routeData st.
Proof.
  unfold tick. destruct (interval st); [|reflexivity].
  unfold commit. destruct (depsChanged _ _ _); reflexivity.
Qed.

Lemma routeData_togglePlay st : routeData (togglePlay st) = routeData st.
Proof. unfold togglePlay, commit. destruct (depsChanged _ _ _); reflexivity. Qed.

Lemma routeData_resetSimulation st : routeData (resetSimulation st) = routeData st.
Proof.
  unfold resetSimulation, commit. destruct (depsChanged _ _ _); reflexivity.
Qed.

Lemma currentIndex_tick st : currentIndex st <= currentIndex (tick st).
Proof.
  unfold tick. destruct (interval st) as [t|]; [|reflexivity].
  unfold commit. destruct (depsChanged _ _ _); simpl;
    (destruct (_ >=? _)%Z; [apply advanceIndex_ge | reflexivity]).
Qed.

Lemma currentIndex_togglePlay st : currentIndex (togglePlay st) = currentIndex st.
Proof. unfold togglePlay, commit. destruct (depsChanged _ _ _); reflexivity. Qed.

Lemma currentIndex_load data st : currentIndex (load data st) = currentIndex st.
Proof. unfold load, commit. destruct (depsChanged _ _ _); reflexivity. Qed.

Lemma currentIndex_resetSimulation st : currentIndex (resetSimulation st) = 0.
Proof.
  unfold resetSimulation, commit. destruct (depsChanged _ _ _); reflexivity.
Qed.

Lemma indexOk_inRange st :
  indexOk st -> 2 <= length (routeData st) -> inRange st.
Proof. unfold indexOk, inRange; lia. Qed.

(** C7: on a route of at least two waypoints the segment index of every
    reachable state lies in [[0, len(route) - 2]]; Tick, Start and Pause
    (the two faces of [togglePlay]) and Reset leave the route as it is and
    keep the index in that range, and the updater of the callback does not
    step past [len(route) - 2]. *)
Theorem segmentIndex_in_range st :
  reachable st ->
  2 <= length (routeData st) ->
  inRange st
  /\ (routeData (tick st) = routeData st /\ inRange (tick st))
  /\ (routeData (togglePlay st) = routeData st /\ inRange (togglePlay st))
  /\ (routeData (resetSimulation st) = routeData st /\ inRange (resetSimulation st))
  /\ (Z.of_nat (advanceIndex (routeData st) (currentIndex st))
      <= Z.of_nat (length (routeData st)) - 2)%Z.
Proof.
  intros Hreach Hlen.
  pose proof (reachable_Inv Hreach) as Hinv.
  assert (Hrange : inRange st) by (apply indexOk_inRange; [apply Hinv | exact Hlen]).
  split; [exact Hrange|].
  split; [|split; [|split]].
  - split; [apply routeData_tick|].
    apply indexOk_inRange; [apply (Inv_tick Hinv)|].
    rewrite routeData_tick; exact Hlen.
  - split; [apply routeData_togglePlay|].
    apply indexOk_inRange; [apply (Inv_togglePlay Hinv)|].
    rewrite routeData_togglePlay; exact Hlen.
  - split; [apply routeData_resetSimulation|].
    apply indexOk_inRange; [apply (Inv_resetSimulation Hinv)|].
    rewrite routeData_resetSimulation; exact Hlen.
  - unfold inRange in Hrange.
    destruct (advanceIndex_cases (routeData st) (currentIndex st))
      as [[-> ?]|[-> ?]]; lia.
Qed.

Lemma currentIndex_run evs st :
  noReset evs = true -> currentIndex st <= currentIndex (run evs st).
Proof.
  revert st; induction evs as [|ev evs IH]; intros st Hno; simpl; [lia|].
  destruct ev; simpl in Hno; try discriminate.
  - simpl. specialize (IH (load data st) Hno).
    rewrite currentIndex_load in IH; exact IH.
  - simpl. specialize (IH (togglePlay st) Hno).
    rewrite currentIndex_togglePlay in IH; exact IH.
  - simpl. specialize (IH (tick st) Hno).
    pose proof (currentIndex_tick st); lia.
Qed.

(** C10: between Resets the segment index never decreases: a Tick keeps
    or raises it, Start and Pause keep it, hence so does every run of
    events without a Reset; Reset is what sets it back to [0]. *)
Theorem currentIndex_monotone st evs :
  noReset evs = true ->
  currentIndex st <= currentIndex (tick st)
  /\ currentIndex (togglePlay st) = currentIndex st
  /\ currentIndex st <= currentIndex (run evs st)
  /\ currentIndex (resetSimulation st) = 0.
Proof.
  intros Hno. repeat split.
  - apply currentIndex_tick.
  - apply currentIndex_togglePlay.
  - apply currentIndex_run; exact Hno.
  - apply currentIndex_resetSimulation.
Qed.

End Index.

(** ** The buttons and the marker *)

Section Controls.
Context {num : Type} `{JsNumber num}.

Implicit Types (st : State num) (route : list (Waypoint num)).

(** C6: Reset, from any reachable state, leaves the segment index at [0],
    no interval armed (so the counter of the next one starts at [0]) and
    [isPlaying] false, and puts the marker on the first waypoint of a
    non-empty route. *)
Theorem reset_restores_start st :
  reachable st ->
  currentIndex (resetSimulation st) = 0
  /\ progressStep (resetSimulation st) = 0%Z
  /\ isPlaying (resetSimulation st) = false
  /\ interval (resetSimulation st) = None
  /\ routeData (resetSimulation st) = routeData st
  /\ (forall w rest, routeData st = w :: rest ->
      interpolatedPos (resetSimulation st) = PosObj (lat w) (lng w)).
Proof.
  intros Hreach.
  pose proof (reachable_Inv Hreach) as [Ht _ _].
  assert (Hnone : interval (resetSimulation st) = None).
  { unfold resetSimulation, commit.
    match goal with |- interval (if ?c then _ else _) = _ => destruct c eqn:Hdeps end.
    - simpl. apply animationEffect_stopped; reflexivity.
    - simpl. destruct (interval st) as [t|] eqn:Hint; [|reflexivity].
      destruct (Ht t eq_refl) as (Hp & _).
      unfold depsChanged in Hdeps; simpl in Hdeps.
      rewrite Hp in Hdeps; simpl in Hdeps; discriminate. }
  split; [apply currentIndex_resetSimulation|].
  split; [unfold progressStep; rewrite Hnone; reflexivity|].
  split; [unfold resetSimulation, commit; destruct (depsChanged _ _ _); reflexivity|].
  split; [exact Hnone|].
  split; [apply routeData_resetSimulation|].
  intros w rest Hroute.
  unfold resetSimulation, commit; rewrite Hroute.
  destruct (depsChanged _ _ _); reflexivity.
Qed.

Lemma interpolatedPos_togglePlay st :
  interpolatedPos (togglePlay st) = interpolatedPos st.
Proof. unfold togglePlay, commit. destruct (depsChanged _ _ _); reflexivity. Qed.

Lemma interpolatedPos_toggles n st :
  interpolatedPos (Nat.iter n togglePlay st) = interpolatedPos st.
Proof.
  induction n as [|n IH]; simpl; [reflexivity|].
  rewrite interpolatedPos_togglePlay; exact IH.
Qed.

Lemma routeData_toggles n st :
  routeData (Nat.iter n togglePlay st) = routeData st.
Proof.
  induction n as [|n IH]; simpl; [reflexivity|].
  rewrite routeData_togglePlay; exact IH.
Qed.

Lemma interpolatedPos_load data st :
  exists e0 e1, interpolatedPos (load data st) = PosArr e0 e1.
Proof.
  unfold load, commit. destruct (depsChanged _ _ _); simpl; eauto.
Qed.

Lemma routeData_load data st : routeData (load data st) = data.
Proof. unfold load, commit. destruct (depsChanged _ _ _); reflexivity. Qed.

Lemma interpolatedPos_tick st t :
  interval st = Some t ->
  exists la ln, interpolatedPos (tick st) = PosObj la ln.
Proof.
  intros Hint. unfold tick; rewrite Hint.
  unfold commit. destruct (depsChanged _ _ _); simpl; eauto.
Qed.

(** C9: once the load has stored a non-empty route, and through any
    number of Start and Pause clicks, [interpolatedPos] is a two-element
    array: its [lat] and [lng] are undefined and the marker is not
    rendered.  The next Reset, or the next Tick of an armed interval,
    stores an object and the marker is rendered. *)
Theorem marker_hidden_after_load st data n :
  data <> [] ->
  (exists e0 e1,
      interpolatedPos (Nat.iter n togglePlay (load data st)) = PosArr e0 e1)
  /\ pos_lat (interpolatedPos (Nat.iter n togglePlay (load data st))) = None
  /\ pos_lng (interpolatedPos (Nat.iter n togglePlay (load data st))) = None
  /\ markerRendered (Nat.iter n togglePlay (load data st)) = false
  /\ markerRendered (resetSimulation (Nat.iter n togglePlay (load data st))) = true
  /\ (interval (Nat.iter n togglePlay (load data st)) <> None ->
      markerRendered (tick (Nat.iter n togglePlay (load data st))) = true).
Proof.
  intros Hdata.
  set (st' := Nat.iter n togglePlay (load data st)).
  assert (Hroute : routeData st' = data)
    by (unfold st'; rewrite routeData_toggles; apply routeData_load).
  destruct (interpolatedPos_load data st) as (e0 & e1 & Hpos).
  assert (Hpos' : interpolatedPos st' = PosArr e0 e1)
    by (unfold st'; rewrite interpolatedPos_toggles; exact Hpos).
  destruct data as [|w rest]; [contradiction|].
  split; [eauto|].
  split; [rewrite Hpos'; reflexivity|].
  split; [rewrite Hpos'; reflexivity|].
  split; [unfold markerRendered; rewrite Hpos'; simpl; apply andb_false_r|].
  split.
  - unfold markerRendered. rewrite routeData_resetSimulation, Hroute.
    unfold resetSimulation, commit; rewrite Hroute.
    destruct (depsChanged _ _ _); reflexivity.
  - intros Hint. destruct (interval st') as [t|] eqn:Ht; [|contradiction].
    destruct (interpolatedPos_tick st' Ht) as (la & ln & Htick).
    unfold markerRendered. rewrite routeData_tick, Hroute, Htick. reflexivity.
Qed.

End Controls.

(** ** Loading the route *)

Section Loader.
Context {num : Type} `{JsNumber num}.
Variable decode : string -> list (num * num).

Implicit Types (elems : list (option (RawPoint num))) (pts : list (num * num)).
Implicit Types (w : Waypoint num).

Lemma mapRecords_throws elems :
  mapRecords elems = None <-> In None elems.
Proof.
  induction elems as [|[p|] elems IH]; simpl.
  - split; [discriminate | contradiction].
  - destruct (mapRecords elems) as [ws|].
    + split; [discriminate|]. intros [Hp|Hin]; [discriminate|].
      apply IH in Hin; discriminate.
    + split; [|reflexivity]. intros _; right; apply IH; reflexivity.
  - split; [left; reflexivity | reflexivity].
Qed.

Lemma mapRecords_nil elems :
  mapRecords elems = Some [] <-> elems = [].
Proof.
  destruct elems as [|[p|] elems]; simpl.
  - split; reflexivity.
  - destruct (mapRecords elems); split; discriminate.
  - split; discriminate.
Qed.

(** The [try] block throws on a rejected fetch, on a body that is not
    JSON, on a JSON value that is no array, and on an array that holds
    [null]; on nothing else. *)
Lemma primaryRoute_throws (r : Primary num) :
  primaryRoute r = None
  <-> r = FetchRejected \/ r = JsonRejected
      \/ r = JsonResolved PNotArray
      \/ exists elems, r = JsonResolved (PArray elems) /\ In None elems.
Proof.
  split.
  - destruct r as [| |[elems|]]; simpl; auto.
    intros Hmap; right; right; right.
    exists elems; split; [reflexivity | apply mapRecords_throws; exact Hmap].
  - intros [->|[->|[->|(elems & -> & Hin)]]]; try reflexivity.
    simpl; apply mapRecords_throws; exact Hin.
Qed.

Lemma stamp_nth_error clock pts : forall j i w,
  nth_error (stamp clock j pts) i = Some w ->
  timestamp w = clock (j + i) /\ nth_error pts i = Some (lat w, lng w).
Proof.
  induction pts as [|[la ln] pts IH]; intros j i w; simpl.
  - destruct i; discriminate.
  - destruct i as [|i]; simpl.
    + intros [= <-]; simpl. rewrite Nat.add_0_r; auto.
    + intros Hnth. apply IH in Hnth.
      replace (j + S i) with (S j + i) by lia. exact Hnth.
Qed.

Lemma stamp_nil clock j pts : stamp clock j pts = [] <-> pts = [].
Proof. destruct pts as [|[la ln] pts]; simpl; split; congruence. Qed.

(** C2, as the code has it: [fetchRouteData] takes the fallback exactly
    when the [try] block throws; the route is then the decoded polyline,
    each point stamped with the reading of the clock at its turn, and is
    non-empty as soon as the decoder yields a point.  A primary array
    that maps without throwing is returned as it is: the empty array
    gives the empty route, and it is the only way to get one. *)
Theorem fetchRouteData_fallback (r : Primary num) (clock : nat -> num) :
  decode encoded <> [] ->
  (primaryRoute r = None ->
     fetchRouteData decode r clock = stamp clock 0 (decode encoded)
     /\ fetchRouteData decode r clock <> []
     /\ forall i w, nth_error (fetchRouteData decode r clock) i = Some w ->
          timestamp w = clock i
          /\ nth_error (decode encoded) i = Some (lat w, lng w))
  /\ (primaryRoute r = None
      <-> r = FetchRejected \/ r = JsonRejected
          \/ r = JsonResolved PNotArray
          \/ exists elems, r = JsonResolved (PArray elems) /\ In None elems)
  /\ (forall route, primaryRoute r = Some route ->
        fetchRouteData decode r clock = route)
  /\ (fetchRouteData decode r clock = [] <-> r = JsonResolved (PArray [])).
Proof.
  intros Hdec. split; [|split; [apply primaryRoute_throws|split]].
  - intros Hthrow. unfold fetchRouteData, fallbackRoute; rewrite Hthrow.
    split; [reflexivity|]. split.
    + intros Hnil; apply stamp_nil in Hnil; contradiction.
    + intros i w Hnth. apply stamp_nth_error in Hnth. exact Hnth.
  - intros route Hroute. unfold fetchRouteData; rewrite Hroute; reflexivity.
  - unfold fetchRouteData, fallbackRoute. split.
    + destruct (primaryRoute r) as [route|] eqn:Hprim.
      * intros ->. destruct r as [| |[elems|]]; simpl in Hprim; try discriminate.
        apply mapRecords_nil in Hprim; subst elems; reflexivity.
      * intros Hnil; apply stamp_nil in Hnil; contradiction.
    + intros ->; reflexivity.
Qed.

End Loader.

(** ** The end of the route *)

Section Replay.
Context {num : Type} `{JsNumber num}.

Implicit Types (st : State num) (d : Waypoint num).

(** C1, as the code has it.  Start on a stopped state at segment [0] of a
    route of [N >= 2] waypoints, then [20 * (N - 1)] callbacks: the index
    is [N - 2] and the marker is where the twentieth callback of the last
    segment put it.  The interval stays armed with its counter back at
    [0], so the callbacks that follow are no no-ops: the [k]-th of them
    puts the marker at [k / 20] of the last segment, and after twenty the
    state is the same again. *)
Theorem last_segment_replays st d :
  isPlaying st = false ->
  currentIndex st = 0 ->
  2 <= length (routeData st) ->
  let N := length (routeData st) in
  let s := nth (N - 2) (routeData st) d in
  let e := nth (N - 1) (routeData st) d in
  let halted := ticks (20 * (N - 1)) (togglePlay st) in
  currentIndex halted = N - 2
  /\ interpolatedPos halted = posAt s e 20
  /\ isPlaying halted = true
  /\ interval halted
     = Some {| t_route := routeData st; t_start := s; t_end := e; t_step := 0 |}
  /\ (forall k, 1 <= k <= 20 ->
        interpolatedPos (ticks k halted) = posAt s e (Z.of_nat k))
  /\ ticks 20 halted = halted.
Proof.
  intros Hp Hidx Hlen N s e halted.
  assert (Hstart : togglePlay st
                   = playingAt (routeData st) (loaded st) 0 0 (interpolatedPos st)
                       (nth 0 (routeData st) d) (nth 1 (routeData st) d)).
  { rewrite togglePlay_arms
      with (s := nth 0 (routeData st) d) (e := nth 1 (routeData st) d);
      [rewrite Hidx; reflexivity | exact Hp | |];
      rewrite Hidx; apply nth_error_nth'; lia. }
  assert (Hhalted : halted
                    = playingAt (routeData st) (loaded st) (N - 2) 0 (posAt s e 20) s e).
  { unfold halted; rewrite Hstart. apply ticks_route; exact Hlen. }
  clearbody halted. subst halted.
  assert (Hagain : ticks 20 (playingAt (routeData st) (loaded st) (N - 2) 0 (posAt s e 20) s e)
                   = playingAt (routeData st) (loaded st) (N - 2) 0 (posAt s e 20) s e).
  { apply segment_stay. unfold N; lia. }
  split; [reflexivity|]. split; [reflexivity|].
  split; [reflexivity|]. split; [reflexivity|].
  split; [|exact Hagain].
  intros k [Hk1 Hk20].
  destruct (Nat.eq_dec k 20) as [->|Hne].
  - rewrite Hagain; reflexivity.
  - destruct k as [|k]; [lia|].
    rewrite ticks_counting by (unfold steps; lia). reflexivity.
Qed.

End Replay.

(** ** Interpolation over the real numbers *)

Section ExactArithmetic.

Implicit Types (route : list (Waypoint R)) (s e : Waypoint R).

Local Open Scope R_scope.

Lemma interpolateAt_R (a b x : R) :
  interpolateAt a b x = a + (b - a) * (x / IZR steps).
Proof.
  unfold interpolateAt, steps; simpl. field.
Qed.

Lemma interpolate_R (a b : R) (k : Z) :
  interpolate a b k = a + (b - a) * (IZR k / IZR steps).
Proof. unfold interpolate. apply interpolateAt_R. Qed.

Lemma interpolate_R_start (a b : R) : interpolate a b 0 = a.
Proof. rewrite interpolate_R; unfold steps; simpl. field. Qed.

Lemma interpolate_R_end (a b : R) : interpolate a b steps = b.
Proof. rewrite interpolate_R; unfold steps; simpl. field. Qed.

Lemma dec_R (m : Z) (k : nat) : dec m k = IZR m / IZR (10 ^ Z.of_nat k).
Proof. reflexivity. Qed.

Lemma sampleStarted_R :
  @sampleStarted R _
  = playingAt sampleRoute true 0 0 (interpolatedPos (@sampleLoaded R _))
      (waypoint (dec 1740 2) (dec 7849 2)) (waypoint (dec 1741 2) (dec 7850 2)).
Proof.
  unfold sampleStarted. apply togglePlay_arms; reflexivity.
Qed.

Lemma position_R_endpoints route (i : nat) s e :
  segment route i = Some (s, e) ->
  position route i 0 = Some (PosObj (lat s) (lng s))
  /\ position route i steps = Some (PosObj (lat e) (lng e)).
Proof.
  intros Hseg. unfold position; rewrite Hseg.
  rewrite !interpolate_R_start, !interpolate_R_end. split; reflexivity.
Qed.

End ExactArithmetic.

(** ** Interpolation in binary64 *)

Section Binary64.

Implicit Types (route : list (Waypoint float)) (s e : Waypoint float).

Local Open Scope float_scope.

Lemma float_finite_cases (x : float) :
  is_finite x = true ->
  (exists sx, Prim2SF x = S754_zero sx)
  \/ (exists sx mx ex, Prim2SF x = S754_finite sx mx ex).
Proof.
  unfold is_finite, is_nan, is_infinity.
  rewrite !FloatAxioms.eqb_spec, abs_spec.
  destruct (Prim2SF x) as [sx|sx| |sx mx ex].
  - eauto.
  - replace (Prim2SF infinity) with (S754_infinity false) by reflexivity.
    destruct sx; vm_compute; discriminate.
  - vm_compute; discriminate.
  - eauto 6.
Qed.

Lemma SFeqb_finite_refl sx mx ex :
  SFeqb (S754_finite sx mx ex) (S754_finite sx mx ex) = true.
Proof.
  unfold SFeqb, SFcompare. rewrite Z.compare_refl, Pos.compare_cont_refl.
  destruct sx; reflexivity.
Qed.

(** At counter [0] the product is a zero, so is the quotient, and adding
    a zero to a finite number gives a number equal to it. *)
Lemma float_interpolate_start (a b : float) :
  is_finite a = true ->
  is_finite (b - a) = true ->
  (interpolate a b 0 =? a) = true.
Proof.
  intros Ha Hd.
  unfold interpolate, interpolateAt.
  cbn [num_add num_sub num_mul num_div num_of_Z float_JsNumber].
  rewrite FloatAxioms.eqb_spec, add_spec, div_spec, mul_spec.
  replace (Prim2SF (float_of_Z 0)) with (S754_zero false) by reflexivity.
  replace (Prim2SF (float_of_Z steps))
    with (S754_finite false 5629499534213120 (-48)) by reflexivity.
  apply float_finite_cases in Ha, Hd.
  destruct Hd as [[sd ->]|(sd & md & ed & ->)];
    destruct Ha as [[sa ->]|(sa & ma & ea & ->)]; simpl.
  all: try apply SFeqb_finite_refl.
  all: destruct sa, sd; reflexivity.
Qed.

(** C5, as the code has it: in exact arithmetic the position at progress
    [0] is [route[i]] and at progress [1] is [route[i+1]]; in binary64
    the position at progress [0] equals [route[i]] whenever its
    coordinates and the differences to the next waypoint are finite,
    while at progress [1] nothing more than the rounded value of the
    formula is stored. *)
Theorem endpoints_of_segment :
  (forall (route : list (Waypoint R)) (i : nat) (s e : Waypoint R),
      segment route i = Some (s, e) ->
      position route i 0 = Some (PosObj (lat s) (lng s))
      /\ position route i steps = Some (PosObj (lat e) (lng e)))
  /\ (forall route (i : nat) s e,
        segment route i = Some (s, e) ->
        is_finite (lat s) = true -> is_finite (lat e - lat s) = true ->
        is_finite (lng s) = true -> is_finite (lng e - lng s) = true ->
        exists la ln,
          position route i 0 = Some (PosObj la ln)
          /\ (la =? lat s) = true /\ (ln =? lng s) = true).
Proof.
  split.
  - intros route i s e Hseg. apply position_R_endpoints; exact Hseg.
  - intros route i s e Hseg Hla Hdla Hln Hdln.
    unfold position; rewrite Hseg.
    exists (interpolate (lat s) (lat e) 0), (interpolate (lng s) (lng e) 0).
    split; [reflexivity|].
    split; apply float_interpolate_start; assumption.
Qed.

End Binary64.

(** ** Heading on a zero-length segment *)

Section Heading.

Implicit Types (route : list (Waypoint R)) (p : Waypoint R).

Local Open Scope R_scope.

Lemma R_atan2_origin : R_atan2 0 0 = 0.
Proof.
  unfold R_atan2. repeat destruct (Rlt_dec _ _); try lra.
Qed.

End Heading.

(** ** The stepwise component halts *)

Module StepwiseFacts.
Import Stepwise.
Section Facts.
Context {num : Type}.

Implicit Types (st : State num) (route : list (Waypoint num)).

Lemma stepwise_tick_playing route l i :
  i + 1 < length route ->
  tick (playing route l i) = playing route l (i + 1).
Proof.
  intros Hi. unfold tick, playing; simpl.
  replace (0 <? length route)%nat with true by (symmetry; apply Nat.ltb_lt; lia).
  replace (Z.of_nat i <? Z.of_nat (length route) - 1)%Z with true
    by (symmetry; apply Z.ltb_lt; lia).
  simpl. unfold commit, depsChanged; simpl.
  replace (i =? i + 1)%nat with false by (symmetry; apply Nat.eqb_neq; lia).
  simpl. unfold animationEffect; simpl.
  replace (0 <? length route)%nat with true by (symmetry; apply Nat.ltb_lt; lia).
  reflexivity.
Qed.

Lemma stepwise_ticks_playing route l j :
  j + 1 <= length route ->
  ticks j (playing route l 0) = playing route l j.
Proof.
  induction j as [|j IH]; intros Hj; [reflexivity|].
  unfold ticks in *; simpl. rewrite IH by lia.
  rewrite stepwise_tick_playing by lia. replace (j + 1) with (S j) by lia. reflexivity.
Qed.

Lemma stepwise_togglePlay_starts st :
  isPlaying st = false ->
  currentIndex st = 0 ->
  togglePlay st = playing (routeData st) (loaded st) 0.
Proof.
  intros Hp Hi. unfold togglePlay, commit, depsChanged; simpl.
  rewrite Hp; simpl. unfold animationEffect, playing; simpl. rewrite Hi. reflexivity.
Qed.

(** X16: the earlier component stops by itself: after Start and [N - 1]
    callbacks the index is that of the last waypoint, the effect arms no
    interval, and a further Tick changes nothing. *)
Lemma stepwise_playback_halts st :
  isPlaying st = false ->
  currentIndex st = 0 ->
  1 <= length (routeData st) ->
  currentIndex (ticks (length (routeData st) - 1) (togglePlay st))
  = length (routeData st) - 1
  /\ interval (ticks (length (routeData st) - 1) (togglePlay st)) = false
  /\ tick (ticks (length (routeData st) - 1) (togglePlay st))
     = ticks (length (routeData st) - 1) (togglePlay st).
Proof.
  intros Hp Hi Hlen.
  rewrite stepwise_togglePlay_starts, stepwise_ticks_playing by (assumption || lia).
  assert (Hoff : interval (playing (routeData st) (loaded st)
                             (length (routeData st) - 1)) = false).
  { unfold playing; simpl. apply andb_false_intro2. apply Z.ltb_ge; lia. }
  split; [reflexivity|]. split; [exact Hoff|].
  unfold tick; rewrite Hoff; reflexivity.
Qed.

Lemma stepwise_interval_playing st :
  reachable st -> interval st = true -> isPlaying st = true.
Proof.
  induction 1 as [|st ev _ IH Hen]; [discriminate|].
  assert (Heff : forall st', animationEffect st' = true -> isPlaying st' = true).
  { intros st'; unfold animationEffect.
    destruct (isPlaying st'); [reflexivity | discriminate]. }
  destruct ev; simpl.
  - unfold load, commit, depsChanged; rewrite orb_true_r.
    intros Ha; apply Heff in Ha; exact Ha.
  - unfold togglePlay, commit, depsChanged; simpl.
    replace (Bool.eqb (isPlaying st) (negb (isPlaying st))) with false
      by (destruct (isPlaying st); reflexivity).
    intros Ha; apply Heff in Ha; exact Ha.
  - unfold resetSimulation, commit.
    destruct (depsChanged _ _ _) eqn:Hdeps.
    + intros Ha; apply Heff in Ha; exact Ha.
    + intros Hint. apply IH in Hint.
      unfold depsChanged in Hdeps; simpl in Hdeps.
      rewrite Hint in Hdeps; discriminate.
  - unfold tick. destruct (interval st) eqn:Hint; [|rewrite Hint; discriminate].
    unfold commit. destruct (depsChanged _ _ _).
    + intros Ha; apply Heff in Ha; exact Ha.
    + intros _; apply IH; reflexivity.
Qed.

(** X17: Reset in the earlier component: index [0], stopped, no interval, and
    the marker on the first waypoint of a non-empty route. *)
Lemma stepwise_reset_restores_start st :
  reachable st ->
  currentIndex (resetSimulation st) = 0
  /\ isPlaying (resetSimulation st) = false
  /\ interval (resetSimulation st) = false
  /\ currentPosition (resetSimulation st) = nth_error (routeData st) 0.
Proof.
  intros Hreach.
  assert (Hpos : forall b l,
             currentPosition {| routeData := routeData st; currentIndex := 0;
                                isPlaying := false; interval := b; loaded := l |}
             = nth_error (routeData st) 0).
  { intros b l. unfold currentPosition; simpl.
    destruct (routeData st); reflexivity. }
  unfold resetSimulation, commit.
  destruct (depsChanged _ _ _) eqn:Hdeps; simpl.
  - repeat split. apply Hpos.
  - repeat split; [|apply Hpos].
    destruct (interval st) eqn:Hint; [|reflexivity].
    apply (stepwise_interval_playing Hreach) in Hint.
    unfold depsChanged in Hdeps; simpl in Hdeps.
    rewrite Hint in Hdeps; discriminate.
Qed.

End Facts.
End StepwiseFacts.

(** ** The properties on the sample data *)

Lemma sampleTicked_reachable : reachable (@sampleTicked float _).
Proof.
  unfold sampleTicked.
  apply reach_step; [|exact I].
  apply reach_step; [|exact I].
  apply reach_step; [apply reach_init | reflexivity].
Qed.

(** The sample route after Start: twenty callbacks reach the last waypoint,
    the twenty-first leaves it. *)
Lemma sample_run_values :
  interpolatedPos (ticks 20 (@sampleStarted float _)) = PosObj 17.41%float 78.5%float
  /\ currentIndex (ticks 20 (@sampleStarted float _)) = 0
  /\ interpolatedPos (ticks 21 (@sampleStarted float _))
     = PosObj 17.400499999999997%float 78.490499999999997%float
  /\ interpolatedPos (ticks 40 (@sampleStarted float _)) = PosObj 17.41%float 78.5%float.
Proof. vm_compute. repeat split; reflexivity. Qed.

Lemma last_segment_replays_sample :
  2 <= length (routeData (@sampleLoaded float _))
  /\ let halted := ticks 20 (@sampleStarted float _) in
     currentIndex halted = 0
     /\ interpolatedPos halted = PosObj 17.41%float 78.5%float
     /\ isPlaying halted = true
     /\ interval halted
        = Some {| t_route := sampleRoute;
                  t_start := waypoint 17.40%float 78.49%float;
                  t_end := waypoint 17.41%float 78.50%float;
                  t_step := 0 |}
     /\ (forall k, 1 <= k <= 20 ->
           interpolatedPos (ticks k halted)
           = posAt (waypoint 17.40%float 78.49%float)
                   (waypoint 17.41%float 78.50%float) (Z.of_nat k))
     /\ ticks 20 halted = halted.
Proof.
  assert (Hp : isPlaying (@sampleLoaded float _) = false) by reflexivity.
  assert (Hi : currentIndex (@sampleLoaded float _) = 0) by reflexivity.
  assert (Hl : 2 <= length (routeData (@sampleLoaded float _))) by (vm_compute; lia).
  split; [exact Hl|].
  pose proof (@last_segment_replays float _ sampleLoaded origin Hp Hi Hl) as Hthm.
  exact Hthm.
Defined.

Lemma fetchRouteData_fallback_sample :
  Polyline.decode (num := float) encoded <> []
  /\ fetchRouteData Polyline.decode FetchRejected frozenClock
     = stamp frozenClock 0 (Polyline.decode (num := float) encoded)
  /\ fetchRouteData (num := float) Polyline.decode FetchRejected frozenClock <> [].
Proof.
  assert (Hdec : Polyline.decode (num := float) encoded <> [])
    by (vm_compute; discriminate).
  split; [exact Hdec|].
  destruct (fetchRouteData_fallback (num := float) Polyline.decode
              FetchRejected frozenClock Hdec) as (Hfallback & _).
  destruct (Hfallback eq_refl) as (Heq & Hne & _).
  split; [exact Heq | exact Hne].
Defined.

(** C2 refuted: an empty primary array is returned as the route, although
    the fallback would have given sixteen waypoints. *)
Lemma empty_primary_yields_empty_route :
  fetchRouteData (num := float) Polyline.decode (JsonResolved (PArray [])) frozenClock = []
  /\ length (fallbackRoute (num := float) Polyline.decode frozenClock) = 16.
Proof. split; vm_compute; reflexivity. Qed.

Lemma endpoints_of_segment_sample :
  (position (@sampleRoute R _) 0 0 = Some (PosObj (dec 1740 2) (dec 7849 2))
   /\ position (@sampleRoute R _) 0 steps = Some (PosObj (dec 1741 2) (dec 7850 2)))
  /\ exists la ln,
       position (@coastRoute float _) 0 0 = Some (PosObj la ln)
       /\ PrimFloat.eqb la 0.2%float = true /\ PrimFloat.eqb ln 0.3%float = true.
Proof.
  split.
  - exact (proj1 endpoints_of_segment sampleRoute 0
             (waypoint (dec 1740 2) (dec 7849 2))
             (waypoint (dec 1741 2) (dec 7850 2)) eq_refl).
  - assert (Hseg : segment (@coastRoute float _) 0
                   = Some (waypoint 0.2%float 0.3%float, waypoint 0.9%float 0.9%float))
      by (vm_compute; reflexivity).
    pose proof (proj2 endpoints_of_segment coastRoute 0
                  (waypoint 0.2%float 0.3%float) (waypoint 0.9%float 0.9%float)
                  Hseg) as Hthm.
    apply Hthm; vm_compute; reflexivity.
Defined.

(** C5 refuted: on [(0.2, 0.3), (0.9, 0.9)] the twentieth callback stores
    [(0.8999999999999999, 0.9000000000000001)], neither coordinate being
    the [0.9] of the waypoint. *)
Lemma endpoint_not_exact :
  segment (@coastRoute float _) 0
  = Some (waypoint 0.2%float 0.3%float, waypoint 0.9%float 0.9%float)
  /\ position (@coastRoute float _) 0 20
     = Some (PosObj 0.89999999999999991%float 0.90000000000000013%float)
  /\ PrimFloat.eqb 0.89999999999999991%float 0.9%float = false
  /\ PrimFloat.eqb 0.90000000000000013%float 0.9%float = false.
Proof. vm_compute. repeat split; reflexivity. Qed.

Lemma reset_restores_start_sample :
  currentIndex (resetSimulation (@sampleTicked float _)) = 0
  /\ progressStep (resetSimulation (@sampleTicked float _)) = 0%Z
  /\ isPlaying (resetSimulation (@sampleTicked float _)) = false
  /\ interval (resetSimulation (@sampleTicked float _)) = None
  /\ routeData (resetSimulation (@sampleTicked float _)) = routeData sampleTicked
  /\ (forall w rest, routeData (@sampleTicked float _) = w :: rest ->
      interpolatedPos (resetSimulation sampleTicked) = PosObj (lat w) (lng w)).
Proof.
  assert (Hreach : reachable (@sampleTicked float _)).
  { unfold sampleTicked.
    apply reach_step; [|exact I].
    apply reach_step; [|exact I].
    apply reach_step; [apply reach_init | reflexivity]. }
  exact (reset_restores_start Hreach).
Defined.

Lemma segmentIndex_in_range_sample :
  inRange (@sampleTicked float _)
  /\ (routeData (tick (@sampleTicked float _)) = routeData sampleTicked
      /\ inRange (tick (@sampleTicked float _)))
  /\ (routeData (togglePlay (@sampleTicked float _)) = routeData sampleTicked
      /\ inRange (togglePlay (@sampleTicked float _)))
  /\ (routeData (resetSimulation (@sampleTicked float _)) = routeData sampleTicked
      /\ inRange (resetSimulation (@sampleTicked float _)))
  /\ (Z.of_nat (advanceIndex (routeData (@sampleTicked float _))
                  (currentIndex sampleTicked))
      <= Z.of_nat (length (routeData (@sampleTicked float _))) - 2)%Z.
Proof.
  assert (Hlen : 2 <= length (routeData (@sampleTicked float _)))
    by (vm_compute; lia).
  exact (segmentIndex_in_range sampleTicked_reachable Hlen).
Defined.

Lemma marker_hidden_after_load_sample :
  (exists e0 e1,
      interpolatedPos (Nat.iter 1 togglePlay (load sampleRoute (@initialState float _)))
      = PosArr e0 e1)
  /\ pos_lat (interpolatedPos
                (Nat.iter 1 togglePlay (load sampleRoute (@initialState float _)))) = None
  /\ pos_lng (interpolatedPos
                (Nat.iter 1 togglePlay (load sampleRoute (@initialState float _)))) = None
  /\ markerRendered (Nat.iter 1 togglePlay (load sampleRoute (@initialState float _)))
     = false
  /\ markerRendered
       (resetSimulation (Nat.iter 1 togglePlay (load sampleRoute (@initialState float _))))
     = true
  /\ (interval (Nat.iter 1 togglePlay (load sampleRoute (@initialState float _))) <> None ->
      markerRendered
        (tick (Nat.iter 1 togglePlay (load sampleRoute (@initialState float _)))) = true).
Proof.
  assert (Hdata : @sampleRoute float _ <> []) by (unfold sampleRoute; discriminate).
  exact (marker_hidden_after_load initialState 1 Hdata).
Defined.

Lemma currentIndex_monotone_sample :
  currentIndex (@sampleLoaded float _) <= currentIndex (tick (@sampleLoaded float _))
  /\ currentIndex (togglePlay (@sampleLoaded float _)) = currentIndex (@sampleLoaded float _)
  /\ currentIndex (@sampleLoaded float _)
     <= currentIndex (run [TogglePlay; Tick; Tick] (@sampleLoaded float _))
  /\ currentIndex (resetSimulation (@sampleLoaded float _)) = 0.
Proof.
  assert (Hno : noReset (num := float) [TogglePlay; Tick; Tick] = true) by reflexivity.
  exact (currentIndex_monotone sampleLoaded [TogglePlay; Tick; Tick] Hno).
Defined.

(** ** The interval and the buttons *)

Section Timer.
Context {num : Type} `{JsNumber num}.

Implicit Types (st : State num) (t : Timer num) (route : list (Waypoint num)).

Lemma animationEffect_arms st :
  isPlaying st = true ->
  2 <= length (routeData st) ->
  indexOk st ->
  animationEffect st <> None.
Proof.
  intros Hp Hlen Hidx. unfold animationEffect. rewrite Hp; simpl.
  replace (length (routeData st) <? 2) with false
    by (symmetry; apply Nat.ltb_ge; exact Hlen).
  assert (H0 : currentIndex st < length (routeData st))
    by (destruct Hidx as [Hi|Hi]; lia).
  assert (H1 : currentIndex st + 1 < length (routeData st))
    by (destruct Hidx as [Hi|Hi]; lia).
  apply nth_error_Some in H0, H1.
  destruct (nth_error (routeData st) (currentIndex st)); [|contradiction].
  destruct (nth_error (routeData st) (currentIndex st + 1)); [|contradiction].
  discriminate.
Qed.

Lemma commit_armed (old new : State num) (b : bool) :
  Inv (commit old new b) ->
  isPlaying new = true ->
  2 <= length (routeData new) ->
  (depsChanged old new b = false -> interval new <> None) ->
  interval (commit old new b) <> None.
Proof.
  intros Hinv Hp Hlen Hsame. unfold commit in *.
  destruct (depsChanged old new b); [|apply Hsame; reflexivity].
  simpl. apply animationEffect_arms; [exact Hp | exact Hlen |].
  destruct Hinv as [_ Hidx _]. exact Hidx.
Qed.

Lemma reachable_armed st :
  reachable st ->
  isPlaying st = true ->
  2 <= length (routeData st) ->
  interval st <> None.
Proof.
  induction 1 as [|st ev Hreach IH Hen]; [discriminate|].
  assert (Hinv : Inv (step ev st))
    by (apply Inv_step; [apply reachable_Inv; exact Hreach | exact Hen]).
  destruct ev; simpl in *.
  - unfold load in *. intros Hp Hlen.
    apply commit_armed; auto.
    + revert Hp; unfold commit; destruct (depsChanged _ _ _); simpl; auto.
    + revert Hlen; unfold commit; destruct (depsChanged _ _ _); simpl; auto.
    + unfold depsChanged; rewrite orb_true_r; discriminate.
  - unfold togglePlay in *. intros Hp Hlen.
    apply commit_armed; auto.
    + revert Hp; unfold commit; destruct (depsChanged _ _ _); simpl; auto.
    + revert Hlen; unfold commit; destruct (depsChanged _ _ _); simpl; auto.
    + unfold depsChanged; simpl.
      replace (Bool.eqb (isPlaying st) (negb (isPlaying st))) with false
        by (destruct (isPlaying st); reflexivity).
      discriminate.
  - unfold resetSimulation, commit.
    destruct (depsChanged _ _ _); simpl; discriminate.
  - unfold tick in *. destruct (interval st) as [t|] eqn:Hint.
    + intros Hp Hlen. apply commit_armed; auto.
      * revert Hp; unfold commit; destruct (depsChanged _ _ _); simpl; auto.
      * revert Hlen; unfold commit; destruct (depsChanged _ _ _); simpl; auto.
      * intros _; simpl; discriminate.
    + intros Hp Hlen. rewrite Hint. apply IH; assumption.
Qed.

(** X1: in every reachable state an interval is armed exactly when the
    component is playing on a route of at least two waypoints; in
    particular a Tick in a stopped state finds no callback and changes
    nothing. *)
Theorem interval_armed_iff_playing st :
  reachable st ->
  (interval st <> None <-> isPlaying st = true /\ 2 <= length (routeData st))
  /\ (isPlaying st = false -> tick st = st).
Proof.
  intros Hreach. pose proof (reachable_Inv Hreach) as [Ht _ _].
  split; [split|].
  - intros Hint. destruct (interval st) as [t|] eqn:Heq; [|contradiction].
    destruct (Ht t eq_refl) as (Hp & _ & _ & He & _).
    split; [exact Hp|].
    assert (currentIndex st + 1 < length (routeData st))
      by (apply nth_error_Some; rewrite He; discriminate).
    lia.
  - intros [Hp Hlen]. apply reachable_armed; assumption.
  - intros Hp. unfold tick. destruct (interval st) as [t|] eqn:Heq; [|reflexivity].
    destruct (Ht t eq_refl) as (Hp' & _). congruence.
Qed.

(** X2: the callback of an armed interval never works on stale data: in
    every reachable state the route, [start] and [end] it closed over are
    the current route and the waypoints at [currentIndex] and
    [currentIndex + 1], and its counter lies in [[0, 20)]. *)
Theorem interval_closure_current st t :
  reachable st ->
  interval st = Some t ->
  t_route t = routeData st
  /\ nth_error (routeData st) (currentIndex st) = Some (t_start t)
  /\ nth_error (routeData st) (currentIndex st + 1) = Some (t_end t)
  /\ (0 <= t_step t < 20)%Z.
Proof.
  intros Hreach Hint. pose proof (reachable_Inv Hreach) as [Ht _ _].
  destruct (Ht t Hint) as (_ & Hr & Hs & He & Hk). auto.
Qed.

Lemma togglePlay_stops st :
  isPlaying st = true ->
  togglePlay st
  = {| routeData := routeData st; currentIndex := currentIndex st;
       interpolatedPos := interpolatedPos st; isPlaying := false;
       interval := None; loaded := loaded st |}.
Proof.
  intros Hp. unfold togglePlay, commit, depsChanged; simpl.
  rewrite Hp; simpl. reflexivity.
Qed.

(** X3: Pause keeps the index and the marker where they are and clears the
    interval, but the progress within the segment is not kept: the Start
    that follows arms a new interval whose counter is [0], whatever the
    counter was, so the next callback puts the marker at [1 / 20] of the
    segment. *)
Theorem pause_forgets_progress st t :
  reachable st ->
  interval st = Some t ->
  (currentIndex (togglePlay st) = currentIndex st
   /\ interpolatedPos (togglePlay st) = interpolatedPos st
   /\ isPlaying (togglePlay st) = false
   /\ interval (togglePlay st) = None)
  /\ togglePlay (togglePlay st)
     = playingAt (routeData st) (loaded st) (currentIndex st) 0
         (interpolatedPos st) (t_start t) (t_end t)
  /\ interpolatedPos (tick (togglePlay (togglePlay st)))
     = posAt (t_start t) (t_end t) 1.
Proof.
  intros Hreach Hint. pose proof (reachable_Inv Hreach) as [Ht _ _].
  destruct (Ht t Hint) as (Hp & _ & Hs & He & _).
  rewrite (togglePlay_stops st Hp).
  split; [repeat split|].
  assert (Hresume :
            togglePlay {| routeData := routeData st; currentIndex := currentIndex st;
                          interpolatedPos := interpolatedPos st; isPlaying := false;
                          interval := None; loaded := loaded st |}
            = playingAt (routeData st) (loaded st) (currentIndex st) 0
                (interpolatedPos st) (t_start t) (t_end t)).
  { apply togglePlay_arms with
      (st := {| routeData := routeData st; currentIndex := currentIndex st;
                interpolatedPos := interpolatedPos st; isPlaying := false;
                interval := None; loaded := loaded st |});
      [reflexivity | exact Hs | exact He]. }
  split; [exact Hresume|].
  rewrite Hresume, tick_counting by (unfold steps; lia). reflexivity.
Qed.

(** X4: in a stopped reachable state Start followed at once by Pause gives
    the state back. *)
Theorem start_then_pause st :
  reachable st ->
  isPlaying st = false ->
  togglePlay (togglePlay st) = st.
Proof.
  intros Hreach Hp. pose proof (reachable_Inv Hreach) as [Ht _ _].
  assert (Hnone : interval st = None).
  { destruct (interval st) as [t|] eqn:Hint; [|reflexivity].
    destruct (Ht t eq_refl) as (Hp' & _). congruence. }
  assert (Hstart : isPlaying (togglePlay st) = true).
  { unfold togglePlay, commit. destruct (depsChanged _ _ _); simpl; rewrite Hp; reflexivity. }
  rewrite (togglePlay_stops _ Hstart).
  rewrite routeData_togglePlay, currentIndex_togglePlay, interpolatedPos_togglePlay.
  replace (loaded (togglePlay st)) with (loaded st)
    by (unfold togglePlay, commit; destruct (depsChanged _ _ _); reflexivity).
  destruct st; simpl in *; subst; reflexivity.
Qed.

(** X5: Reset is idempotent: a second Reset changes nothing. *)
Theorem reset_idempotent st :
  resetSimulation (resetSimulation st) = resetSimulation st.
Proof.
  assert (Hr : exists o,
             resetSimulation st
             = {| routeData := routeData st; currentIndex := 0;
                  interpolatedPos := match routeData st with
                                     | w :: _ => PosObj (lat w) (lng w)
                                     | [] => interpolatedPos st
                                     end;
                  isPlaying := false; interval := o; loaded := loaded st |}).
  { unfold resetSimulation, commit. destruct (depsChanged _ _ _); eexists; reflexivity. }
  destruct Hr as [o Hr]. rewrite Hr.
  unfold resetSimulation, commit, depsChanged; simpl.
  destruct (routeData st); reflexivity.
Qed.

Lemma togglePlay_commits st :
  togglePlay st
  = withInterval
      {| routeData := routeData st; currentIndex := currentIndex st;
         interpolatedPos := interpolatedPos st; isPlaying := negb (isPlaying st);
         interval := interval st; loaded := loaded st |}
      (animationEffect
         {| routeData := routeData st; currentIndex := currentIndex st;
            interpolatedPos := interpolatedPos st; isPlaying := negb (isPlaying st);
            interval := interval st; loaded := loaded st |}).
Proof.
  unfold togglePlay, commit, depsChanged; simpl.
  replace (Bool.eqb (isPlaying st) (negb (isPlaying st))) with false
    by (destruct (isPlaying st); reflexivity).
  reflexivity.
Qed.

(** X6: Start (or Pause) and the completion of the load commute: clicking
    before the route arrives gives the state that clicking after it gives,
    so a Start clicked early begins to play as soon as a route of two
    waypoints is there. *)
Theorem load_togglePlay_commute st data :
  load data (togglePlay st) = togglePlay (load data st).
Proof.
  rewrite (togglePlay_commits (load data st)), (togglePlay_commits st).
  unfold load, commit, depsChanged. rewrite !orb_true_r. reflexivity.
Qed.

End Timer.

(** ** The course of the marker *)

Section Trajectory.
Context {num : Type} `{JsNumber num}.

Implicit Types (st : State num) (d : Waypoint num).

(** X7: the state at any moment of an uninterrupted run.  After Start at
    segment [0] of a route, [20 * j + k] callbacks with [0 < k < 20], [j]
    being a segment of the route, leave the index at [j], the counter at
    [k] and the marker at [k / 20] between waypoints [j] and [j + 1]. *)
Theorem playback_trajectory st d (j k : nat) :
  isPlaying st = false ->
  currentIndex st = 0 ->
  j + 2 <= length (routeData st) ->
  0 < k < 20 ->
  ticks (20 * j + k) (togglePlay st)
  = playingAt (routeData st) (loaded st) j (Z.of_nat k)
      (posAt (nth j (routeData st) d) (nth (j + 1) (routeData st) d) (Z.of_nat k))
      (nth j (routeData st) d) (nth (j + 1) (routeData st) d).
Proof.
  intros Hp Hidx Hlen Hk.
  rewrite togglePlay_arms
    with (s := nth 0 (routeData st) d) (e := nth 1 (routeData st) d);
    [| exact Hp | rewrite Hidx; apply nth_error_nth'; lia
     | rewrite Hidx; apply nth_error_nth'; lia].
  rewrite Hidx.
  replace (20 * j + k) with (k + 20 * j) by lia.
  rewrite ticks_add, ticks_segments by exact Hlen.
  destruct k as [|k]; [lia|].
  apply ticks_counting. unfold steps; lia.
Qed.

End Trajectory.

(** ** The two lines and the readout *)

Section Lines.
Context {num : Type} `{JsNumber num}.

Implicit Types (st : State num).

Lemma firstn_extends (A : Type) (l : list A) (n m : nat) :
  n <= m -> firstn m l = firstn n l ++ firstn (m - n) (skipn n l).
Proof.
  revert l m; induction n as [|n IH]; intros l m Hnm.
  - simpl. rewrite Nat.sub_0_r. reflexivity.
  - destruct m as [|m]; [lia|]. destruct l as [|x l]; simpl.
    + rewrite firstn_nil. reflexivity.
    + rewrite (IH l m) by lia. reflexivity.
Qed.

(** X10: what the blue line and the readout show in a reachable state with
    a route: the traveled line is the full line cut after waypoint
    [currentIndex], it has [currentIndex + 1] points, the same number that
    the readout shows against the total; and on a route of two waypoints
    or more it stays short of the full line, the readout short of the
    total: the last waypoint is never counted as travelled. *)
Theorem traveled_line st :
  reachable st ->
  routeData st <> [] ->
  traveledPath st = firstn (currentIndex st + 1) (fullPath st)
  /\ length (traveledPath st) = currentIndex st + 1
  /\ pointReadout st = (length (traveledPath st), length (fullPath st))
  /\ (2 <= length (routeData st) ->
      length (traveledPath st) < length (fullPath st)).
Proof.
  intros Hreach Hne. pose proof (reachable_Inv Hreach) as [_ Hidx _].
  unfold indexOk in Hidx.
  assert (Hpos : 1 <= length (routeData st))
    by (destruct (routeData st); [contradiction | simpl; lia]).
  assert (Hlen : currentIndex st + 1 <= length (routeData st)) by lia.
  assert (Hcount : length (traveledPath st) = currentIndex st + 1).
  { unfold traveledPath. rewrite length_map, length_firstn. lia. }
  split; [unfold traveledPath, fullPath; symmetry; apply firstn_map|].
  split; [exact Hcount|].
  split; [unfold pointReadout, fullPath; rewrite Hcount, length_map; reflexivity|].
  intros H2. rewrite Hcount. unfold fullPath; rewrite length_map.
  destruct Hidx as [Hi|Hi]; lia.
Qed.

(** X11: a callback never shortens the blue line: the traveled line after a
    Tick starts with the traveled line before it. *)
Theorem traveled_line_grows st :
  exists more, traveledPath (tick st) = traveledPath st ++ more.
Proof.
  unfold traveledPath. rewrite routeData_tick.
  rewrite (@firstn_extends _ (routeData st) (currentIndex st + 1)
             (currentIndex (tick st) + 1))
    by (pose proof (currentIndex_tick st); lia).
  rewrite map_app. eexists; reflexivity.
Qed.

End Lines.

(** ** The heading of the marker *)

Section RotationFacts.
Context {num : Type} `{JsNumber num} `{JsMath num}.

Implicit Types (st : State num) (angle : option num).

(** X12: when the rotation effect turns the marker.  While the index is
    [0], or while the marker is not drawn, it leaves the angle as it is; in
    a reachable state with the index at [1] or more and the marker drawn,
    both waypoints exist and it sets the heading of the segment that ends
    at [currentIndex], from waypoint [currentIndex - 1], which is the
    segment just completed. *)
Theorem rotation_of_completed_segment st angle :
  reachable st ->
  ((currentIndex st = 0 \/ markerRendered st = false) ->
   rotationAfter st angle = angle)
  /\ (1 <= currentIndex st -> markerRendered st = true ->
      exists prev next,
        nth_error (routeData st) (currentIndex st - 1) = Some prev
        /\ nth_error (routeData st) (currentIndex st) = Some next
        /\ rotationAfter st angle = Some (getRotationAngle prev next)).
Proof.
  intros Hreach. split.
  - unfold rotationAfter, rotationEffect. intros [Hi|Hm].
    + rewrite Hi. simpl. rewrite orb_true_r. reflexivity.
    + rewrite Hm. reflexivity.
  - intros Hi Hm. pose proof (reachable_Inv Hreach) as [_ Hidx _].
    unfold indexOk in Hidx.
    assert (Hlt : currentIndex st < length (routeData st)) by lia.
    assert (Hprev : currentIndex st - 1 < length (routeData st)) by lia.
    destruct (nth_error (routeData st) (currentIndex st - 1)) as [prev|] eqn:Eprev;
      [|apply nth_error_None in Eprev; lia].
    destruct (nth_error (routeData st) (currentIndex st)) as [next|] eqn:Enext;
      [|apply nth_error_None in Enext; lia].
    exists prev, next. split; [reflexivity|]. split; [reflexivity|].
    unfold rotationAfter, rotationEffect. rewrite Hm. simpl negb. simpl orb.
    replace (currentIndex st =? 0) with false by (symmetry; apply Nat.eqb_neq; lia).
    replace (length (routeData st) <=? currentIndex st) with false
      by (symmetry; apply Nat.leb_gt; lia).
    simpl. rewrite Eprev, Enext. reflexivity.
Qed.

End RotationFacts.

Section Bearing.

Implicit Types (prev next : Waypoint R).

Local Open Scope R_scope.

Lemma getRotationAngle_R prev next :
  getRotationAngle prev next
  = R_atan2 (lng next - lng prev) (lat next - lat prev) * 180 / PI.
Proof. reflexivity. Qed.

(** X13: the heading is a compass bearing: [0] for a move due north (the
    latitude grows, the longitude stays), [90] due east, [180] due south
    and [-90] due west. *)
Theorem heading_of_cardinal_moves prev next :
  (lng next = lng prev -> lat prev < lat next ->
   getRotationAngle prev next = 0)
  /\ (lat next = lat prev -> lng prev < lng next ->
      getRotationAngle prev next = 90)
  /\ (lng next = lng prev -> lat next < lat prev ->
      getRotationAngle prev next = 180)
  /\ (lat next = lat prev -> lng next < lng prev ->
      getRotationAngle prev next = -90).
Proof.
  pose proof PI_RGT_0 as Hpi.
  rewrite getRotationAngle_R. unfold R_atan2.
  repeat split; intros Heq Hlt; rewrite Heq, ?Rminus_diag.
  - destruct (Rlt_dec 0 (lat next - lat prev)) as [_|Hn]; [|lra].
    unfold Rdiv at 2. rewrite Rmult_0_l, atan_0. field. lra.
  - destruct (Rlt_dec 0 0) as [Hn|_]; [lra|].
    destruct (Rlt_dec 0 0) as [Hn|_]; [lra|].
    destruct (Rlt_dec 0 (lng next - lng prev)) as [_|Hn]; [|lra].
    field. lra.
  - destruct (Rlt_dec 0 (lat next - lat prev)) as [Hn|_]; [lra|].
    destruct (Rlt_dec (lat next - lat prev) 0) as [_|Hn]; [|lra].
    destruct (Rlt_dec 0 0) as [Hn|_]; [lra|].
    unfold Rdiv at 2. rewrite Rmult_0_l, atan_0. field. lra.
  - destruct (Rlt_dec 0 0) as [Hn|_]; [lra|].
    destruct (Rlt_dec 0 0) as [Hn|_]; [lra|].
    destruct (Rlt_dec 0 (lng next - lng prev)) as [Hn|_]; [lra|].
    destruct (Rlt_dec (lng next - lng prev) 0) as [_|Hn]; [|lra].
    field. lra.
Qed.

End Bearing.

(** ** The primary route *)

Section PrimarySuccess.
Context {num : Type} `{JsNumber num}.
Variable decode : string -> list (num * num).

Lemma mapRecords_records (records : list (RawPoint num)) :
  mapRecords (map Some records) = Some (map toWaypoint records).
Proof.
  induction records as [|p records IH]; simpl; [reflexivity|].
  rewrite IH; reflexivity.
Qed.

(** X15: a primary array of records is returned record by record: the
    route has as many waypoints, in the same order, each with the
    latitude, longitude and timestamp of its record, and neither the
    decoder nor the clock has a part in it. *)
Theorem fetchRouteData_primary (records : list (RawPoint num)) (clock : nat -> num) :
  fetchRouteData decode (JsonResolved (PArray (map Some records))) clock
  = map toWaypoint records
  /\ length (fetchRouteData decode (JsonResolved (PArray (map Some records))) clock)
     = length records
  /\ forall i p, nth_error records i = Some p ->
       nth_error (fetchRouteData decode (JsonResolved (PArray (map Some records))) clock) i
       = Some {| lat := latitude p; lng := longitude p; timestamp := raw_timestamp p |}.
Proof.
  assert (Heq : fetchRouteData decode (JsonResolved (PArray (map Some records))) clock
                = map toWaypoint records).
  { unfold fetchRouteData; simpl. rewrite mapRecords_records. reflexivity. }
  rewrite Heq. split; [reflexivity|]. split; [apply length_map|].
  intros i p Hnth. rewrite nth_error_map, Hnth. reflexivity.
Qed.

End PrimarySuccess.

(** ** The marker of the stepwise component *)

Module StepwiseBounds.
Import Stepwise.
Section Facts.
Context {num : Type}.

Implicit Types (st : State num).

Lemma stepwise_effect_bound st :
  animationEffect st = true -> currentIndex st + 1 < length (routeData st).
Proof.
  unfold animationEffect. intros Heff.
  apply andb_prop in Heff as [_ Hlt]. apply Z.ltb_lt in Hlt. lia.
Qed.

Lemma stepwise_reachable_ok st : reachable st -> stepwiseOk st.
Proof.
  induction 1 as [|st ev _ (Hint & Hidx & Hun) Hen].
  - split; [discriminate | split; [left; reflexivity | reflexivity]].
  - destruct ev; simpl in *.
    + assert (Hroute : routeData st = []) by (apply Hun; exact Hen).
      assert (Hi : currentIndex st = 0)
        by (destruct Hidx as [Hi|Hi]; [exact Hi | rewrite Hroute in Hi; simpl in Hi; lia]).
      unfold load, commit, depsChanged; rewrite orb_true_r.
      split; [|split]; simpl.
      * intros Heff; apply stepwise_effect_bound in Heff; exact Heff.
      * left; exact Hi.
      * discriminate.
    + unfold togglePlay, commit, depsChanged; simpl.
      replace (Bool.eqb (isPlaying st) (negb (isPlaying st))) with false
        by (destruct (isPlaying st); reflexivity).
      split; [|split]; simpl; [|exact Hidx|exact Hun].
      intros Heff; apply stepwise_effect_bound in Heff; exact Heff.
    + unfold resetSimulation, commit.
      destruct (depsChanged _ _ _) eqn:Hdeps; (split; [|split]); simpl;
        try (left; reflexivity); try exact Hun.
      * intros Heff; apply stepwise_effect_bound in Heff; exact Heff.
      * intros Hon. specialize (Hint Hon).
        unfold depsChanged in Hdeps; simpl in Hdeps.
        rewrite orb_false_r in Hdeps.
        apply orb_false_elim in Hdeps as [_ Hsame].
        apply negb_false_iff, Nat.eqb_eq in Hsame. lia.
    + unfold tick. destruct (interval st) eqn:Hon;
        [|split; [rewrite Hon; discriminate | split; assumption]].
      specialize (Hint eq_refl).
      unfold commit, depsChanged; simpl.
      replace (currentIndex st =? currentIndex st + 1) with false
        by (symmetry; apply Nat.eqb_neq; lia).
      rewrite orb_true_r; simpl.
      split; [|split]; simpl; [| right; lia | exact Hun].
      intros Heff; apply stepwise_effect_bound in Heff; exact Heff.
Qed.

(** X18: in the stepwise component the marker is always on a waypoint: in
    every reachable state with a route the index is within the route and
    [currentPosition] is the waypoint at that index, the fallback to the
    first waypoint never being needed. *)
Theorem stepwise_marker_on_waypoint st :
  reachable st ->
  routeData st <> [] ->
  currentIndex st < length (routeData st)
  /\ currentPosition st = nth_error (routeData st) (currentIndex st)
  /\ exists w, currentPosition st = Some w.
Proof.
  intros Hreach Hne. destruct (stepwise_reachable_ok Hreach) as (_ & Hidx & _).
  assert (Hpos : 1 <= length (routeData st))
    by (destruct (routeData st); [contradiction | simpl; lia]).
  assert (Hlt : currentIndex st < length (routeData st)) by lia.
  split; [exact Hlt|].
  unfold currentPosition.
  destruct (nth_error (routeData st) (currentIndex st)) as [w|] eqn:Hnth.
  - split; [reflexivity | exists w; reflexivity].
  - apply nth_error_None in Hnth. lia.
Qed.

End Facts.
End StepwiseBounds.

(** ** The further properties on the sample data *)

Local Abbreviation tickedF := (@sampleTicked float float_JsNumber).
Local Abbreviation loadedF := (@sampleLoaded float float_JsNumber).
Local Abbreviation tickedR := (@sampleTicked R R_JsNumber).
Local Abbreviation loadedR := (@sampleLoaded R R_JsNumber).
Local Abbreviation stepTickedF := (@stepwiseTicked float float_JsNumber).
Local Abbreviation stepLoadedF := (@stepwiseLoaded float float_JsNumber).

Lemma sampleLoaded_reachable : reachable loadedF.
Proof.
  unfold sampleLoaded.
  exact (reach_step (Load sampleRoute) reach_init eq_refl).
Qed.

Lemma sampleTicked_reachable_R : reachable tickedR.
Proof.
  unfold sampleTicked.
  apply reach_step; [|exact I].
  apply reach_step; [|exact I].
  apply reach_step; [apply reach_init | reflexivity].
Qed.

Lemma stepwiseTicked_reachable : Stepwise.reachable stepTickedF.
Proof.
  unfold stepwiseTicked.
  apply Stepwise.reach_step; [|exact I].
  apply Stepwise.reach_step; [|exact I].
  apply Stepwise.reach_step; [apply Stepwise.reach_init | reflexivity].
Qed.

Lemma interval_armed_iff_playing_sample :
  (interval tickedF <> None
   <-> isPlaying tickedF = true
       /\ 2 <= length (routeData tickedF))
  /\ (isPlaying tickedF = false -> tick tickedF = tickedF).
Proof.
  exact (interval_armed_iff_playing sampleTicked_reachable).
Defined.

Lemma interval_closure_current_sample :
  let t := {| t_route := @sampleRoute float _;
              t_start := waypoint (dec 1740 2) (dec 7849 2);
              t_end := waypoint (dec 1741 2) (dec 7850 2);
              t_step := 1 |} in
  t_route t = routeData tickedF
  /\ nth_error (routeData tickedF) (currentIndex tickedF) = Some (t_start t)
  /\ nth_error (routeData tickedF) (currentIndex tickedF + 1) = Some (t_end t)
  /\ (0 <= t_step t < 20)%Z.
Proof.
  intros t.
  assert (Hint : interval tickedF = Some t) by reflexivity.
  exact (interval_closure_current sampleTicked_reachable Hint).
Defined.

Lemma pause_forgets_progress_sample :
  let t := {| t_route := @sampleRoute float _;
              t_start := waypoint (dec 1740 2) (dec 7849 2);
              t_end := waypoint (dec 1741 2) (dec 7850 2);
              t_step := 1 |} in
  (currentIndex (togglePlay tickedF) = currentIndex tickedF
   /\ interpolatedPos (togglePlay tickedF) = interpolatedPos tickedF
   /\ isPlaying (togglePlay tickedF) = false
   /\ interval (togglePlay tickedF) = None)
  /\ togglePlay (togglePlay tickedF)
     = playingAt (routeData tickedF) (loaded tickedF)
         (currentIndex tickedF) 0 (interpolatedPos tickedF)
         (t_start t) (t_end t)
  /\ interpolatedPos (tick (togglePlay (togglePlay tickedF)))
     = posAt (t_start t) (t_end t) 1.
Proof.
  intros t.
  assert (Hint : interval tickedF = Some t) by reflexivity.
  exact (pause_forgets_progress sampleTicked_reachable Hint).
Defined.

Lemma start_then_pause_sample :
  togglePlay (togglePlay loadedF) = loadedF.
Proof.
  assert (Hp : isPlaying loadedF = false) by reflexivity.
  exact (start_then_pause sampleLoaded_reachable Hp).
Defined.

Lemma playback_trajectory_sample :
  ticks (20 * 0 + 10) (togglePlay loadedF)
  = playingAt (routeData loadedF) (loaded loadedF) 0 (Z.of_nat 10)
      (posAt (nth 0 (routeData loadedF) origin)
             (nth (0 + 1) (routeData loadedF) origin) (Z.of_nat 10))
      (nth 0 (routeData loadedF) origin)
      (nth (0 + 1) (routeData loadedF) origin).
Proof.
  assert (Hp : isPlaying loadedF = false) by reflexivity.
  assert (Hi : currentIndex loadedF = 0) by reflexivity.
  assert (Hl : 0 + 2 <= length (routeData loadedF))
    by (vm_compute; lia).
  assert (Hk : 0 < 10 < 20) by lia.
  exact (playback_trajectory loadedF origin 0 Hp Hi Hl Hk).
Defined.

Lemma traveled_line_sample :
  traveledPath tickedF
  = firstn (currentIndex tickedF + 1) (fullPath tickedF)
  /\ length (traveledPath tickedF) = currentIndex tickedF + 1
  /\ pointReadout tickedF
     = (length (traveledPath tickedF), length (fullPath tickedF))
  /\ (2 <= length (routeData tickedF) ->
      length (traveledPath tickedF)
      < length (fullPath tickedF)).
Proof.
  assert (Hne : routeData tickedF <> [])
    by (vm_compute; discriminate).
  exact (traveled_line sampleTicked_reachable Hne).
Defined.

Lemma rotation_of_completed_segment_sample :
  ((currentIndex tickedR = 0 \/ markerRendered tickedR = false) ->
   rotationAfter tickedR (Some 45%R) = Some 45%R)
  /\ (1 <= currentIndex tickedR -> markerRendered tickedR = true ->
      exists prev next,
        nth_error (routeData tickedR) (currentIndex tickedR - 1) = Some prev
        /\ nth_error (routeData tickedR) (currentIndex tickedR) = Some next
        /\ rotationAfter tickedR (Some 45%R) = Some (getRotationAngle prev next)).
Proof.
  exact (rotation_of_completed_segment (Some 45%R) sampleTicked_reachable_R).
Defined.

Lemma heading_of_cardinal_moves_sample :
  getRotationAngle (waypoint 17%R 78%R) (waypoint 18%R 78%R) = 0%R.
Proof.
  assert (Hlng : lng (waypoint 18%R 78%R) = lng (waypoint 17%R 78%R)) by reflexivity.
  assert (Hlat : (lat (waypoint 17%R 78%R) < lat (waypoint 18%R 78%R))%R)
    by (simpl; lra).
  exact (proj1 (heading_of_cardinal_moves (waypoint 17%R 78%R) (waypoint 18%R 78%R))
           Hlng Hlat).
Defined.

Lemma stepwise_playback_halts_sample :
  Stepwise.currentIndex
    (Stepwise.ticks (length (Stepwise.routeData stepLoadedF) - 1)
       (Stepwise.togglePlay stepLoadedF))
  = length (Stepwise.routeData stepLoadedF) - 1
  /\ Stepwise.interval
       (Stepwise.ticks (length (Stepwise.routeData stepLoadedF) - 1)
          (Stepwise.togglePlay stepLoadedF)) = false
  /\ Stepwise.tick
       (Stepwise.ticks (length (Stepwise.routeData stepLoadedF) - 1)
          (Stepwise.togglePlay stepLoadedF))
     = Stepwise.ticks (length (Stepwise.routeData stepLoadedF) - 1)
         (Stepwise.togglePlay stepLoadedF).
Proof.
  assert (Hp : Stepwise.isPlaying stepLoadedF = false) by reflexivity.
  assert (Hi : Stepwise.currentIndex stepLoadedF = 0) by reflexivity.
  assert (Hl : 1 <= length (Stepwise.routeData stepLoadedF))
    by (vm_compute; lia).
  exact (StepwiseFacts.stepwise_playback_halts stepLoadedF Hp Hi Hl).
Defined.

Lemma stepwise_reset_restores_start_sample :
  Stepwise.currentIndex (Stepwise.resetSimulation stepTickedF) = 0
  /\ Stepwise.isPlaying (Stepwise.resetSimulation stepTickedF) = false
  /\ Stepwise.interval (Stepwise.resetSimulation stepTickedF) = false
  /\ Stepwise.currentPosition (Stepwise.resetSimulation stepTickedF)
     = nth_error (Stepwise.routeData stepTickedF) 0.
Proof.
  exact (StepwiseFacts.stepwise_reset_restores_start stepwiseTicked_reachable).
Defined.

Lemma stepwise_marker_on_waypoint_sample :
  Stepwise.currentIndex stepTickedF
  < length (Stepwise.routeData stepTickedF)
  /\ Stepwise.currentPosition stepTickedF
     = nth_error (Stepwise.routeData stepTickedF)
         (Stepwise.currentIndex stepTickedF)
  /\ exists w, Stepwise.currentPosition stepTickedF = Some w.
Proof.
  assert (Hne : Stepwise.routeData stepTickedF <> [])
    by (vm_compute; discriminate).
  exact (StepwiseBounds.stepwise_marker_on_waypoint stepwiseTicked_reachable Hne).
Defined.

(** ** Start *)

Section Start.
Context {num : Type} `{JsNumber num}.

Implicit Types (st : State num).

(** C8, as the code has it: Start is never a no-op.  From a stopped state
    it always turns [isPlaying] on and leaves the segment index, the
    position and the route as they are.  On a route of fewer than two
    waypoints it arms no interval, so that a Tick finds nothing to run.
    Whenever the current segment exists, the final segment with its
    progress complete included, it arms an interval on that segment with
    the counter at [0]. *)
Theorem start_always_plays st :
  isPlaying st = false ->
  isPlaying (togglePlay st) = true
  /\ currentIndex (togglePlay st) = currentIndex st
  /\ interpolatedPos (togglePlay st) = interpolatedPos st
  /\ routeData (togglePlay st) = routeData st
  /\ (length (routeData st) < 2 ->
      interval (togglePlay st) = None /\ tick (togglePlay st) = togglePlay st)
  /\ (forall s e,
        nth_error (routeData st) (currentIndex st) = Some s ->
        nth_error (routeData st) (currentIndex st + 1) = Some e ->
        interval (togglePlay st)
        = Some {| t_route := routeData st; t_start := s; t_end := e; t_step := 0 |})
  /\ (currentIndex st + 2 = length (routeData st) ->
      interval (togglePlay st) <> None).
Proof.
  intros Hp.
  assert (Harm : forall s e,
             nth_error (routeData st) (currentIndex st) = Some s ->
             nth_error (routeData st) (currentIndex st + 1) = Some e ->
             interval (togglePlay st)
             = Some {| t_route := routeData st; t_start := s; t_end := e; t_step := 0 |}).
  { intros s e Hs He. rewrite (togglePlay_arms st Hp Hs He). reflexivity. }
  split.
  { unfold togglePlay, commit. destruct (depsChanged _ _ _); simpl; rewrite Hp; reflexivity. }
  split; [apply currentIndex_togglePlay|].
  split; [apply interpolatedPos_togglePlay|].
  split; [apply routeData_togglePlay|].
  split; [|split; [exact Harm|]].
  - intros Hlen.
    assert (Hnone : interval (togglePlay st) = None).
    { rewrite togglePlay_commits. simpl.
      apply animationEffect_short. simpl. exact Hlen. }
    split; [exact Hnone|]. unfold tick; rewrite Hnone; reflexivity.
  - intros Hlast.
    assert (H0 : currentIndex st < length (routeData st)) by lia.
    assert (H1 : currentIndex st + 1 < length (routeData st)) by lia.
    apply nth_error_Some in H0, H1.
    destruct (nth_error (routeData st) (currentIndex st)) as [s|] eqn:Hs; [|contradiction].
    destruct (nth_error (routeData st) (currentIndex st + 1)) as [e|] eqn:He; [|contradiction].
    rewrite (Harm s e eq_refl eq_refl). discriminate.
Qed.

End Start.

(** ** The stored position and the formula of the specification *)

Section Interpolation.

Local Open Scope R_scope.

Lemma lerp_R (a b p : R) : lerp a b p = a + (b - a) * p.
Proof. reflexivity. Qed.

Lemma position_binary64 (route : list (Waypoint float)) (i : nat)
    (s e : Waypoint float) (k : Z) :
  segment route i = Some (s, e) ->
  exists la ln,
    position route i k = Some (PosObj la ln)
    /\ Prim2SF la
       = SF64add (Prim2SF (lat s))
           (SF64div
              (SF64mul (SF64sub (Prim2SF (lat e)) (Prim2SF (lat s)))
                 (Prim2SF (float_of_Z k)))
              (Prim2SF (float_of_Z steps)))
    /\ Prim2SF ln
       = SF64add (Prim2SF (lng s))
           (SF64div
              (SF64mul (SF64sub (Prim2SF (lng e)) (Prim2SF (lng s)))
                 (Prim2SF (float_of_Z k)))
              (Prim2SF (float_of_Z steps))).
Proof.
  intros Hseg. unfold position; rewrite Hseg.
  eexists; eexists. split; [reflexivity|].
  unfold interpolate, interpolateAt.
  cbn [num_add num_sub num_mul num_div num_of_Z float_JsNumber].
  rewrite !add_spec, !div_spec, !mul_spec, !sub_spec. split; reflexivity.
Qed.

(** C4, as the code has it.  In exact arithmetic the position computed on
    segment [i] at counter [k] is the linear interpolation of the
    specification at progress [k / 20], and the formula of the callback is
    that interpolation at every progress [p] of [[0, 1]].  In binary64 the
    callback stores [start + ((end - start) * step) / steps] with each of
    its four operations rounded as IEEE 754 says, which is not always the
    value of the formula of the specification.  On the route [(17.40,
    78.49), (17.41, 78.50)] the tenth callback after Start stores the
    midpoint [(17.405, 78.495)] exactly over the reals and, in binary64,
    the doubles nearest to these two numbers. *)
Theorem position_interpolation :
  (forall (route : list (Waypoint R)) (i : nat) (s e : Waypoint R) (k : Z),
      segment route i = Some (s, e) ->
      (0 <= k <= steps)%Z ->
      position route i k
      = Some (PosObj (lerp (lat s) (lat e) (IZR k / IZR steps))
                     (lerp (lng s) (lng e) (IZR k / IZR steps))))
  /\ (forall (s e : Waypoint R) (p : R),
        0 <= p <= 1 ->
        interpolateAt (lat s) (lat e) (p * IZR steps) = lerp (lat s) (lat e) p
        /\ interpolateAt (lng s) (lng e) (p * IZR steps) = lerp (lng s) (lng e) p)
  /\ (forall (route : list (Waypoint float)) (i : nat) (s e : Waypoint float) (k : Z),
        segment route i = Some (s, e) ->
        exists la ln,
          position route i k = Some (PosObj la ln)
          /\ Prim2SF la
             = SF64add (Prim2SF (lat s))
                 (SF64div
                    (SF64mul (SF64sub (Prim2SF (lat e)) (Prim2SF (lat s)))
                       (Prim2SF (float_of_Z k)))
                    (Prim2SF (float_of_Z steps)))
          /\ Prim2SF ln
             = SF64add (Prim2SF (lng s))
                 (SF64div
                    (SF64mul (SF64sub (Prim2SF (lng e)) (Prim2SF (lng s)))
                       (Prim2SF (float_of_Z k)))
                    (Prim2SF (float_of_Z steps))))
  /\ interpolatedPos (ticks 10 (@sampleStarted R _))
     = PosObj (17405 / 1000) (78495 / 1000)
  /\ interpolatedPos (ticks 10 (@sampleStarted float _))
     = PosObj 17.405%float 78.495%float.
Proof.
  split; [|split; [|split; [|split]]].
  - intros route i s e k Hseg Hk.
    unfold position; rewrite Hseg. rewrite !interpolate_R, !lerp_R. reflexivity.
  - intros s e p Hp. rewrite !interpolateAt_R, !lerp_R.
    split; unfold steps; field.
  - intros route i s e k Hseg. apply position_binary64; exact Hseg.
  - rewrite sampleStarted_R, ticks_counting by (unfold steps; lia).
    unfold playingAt; cbn [interpolatedPos]. unfold posAt, waypoint; cbn [lat lng].
    rewrite !interpolate_R, !dec_R. unfold steps.
    change (10 ^ Z.of_nat 2)%Z with 100%Z. change (Z.of_nat 10) with 10%Z.
    f_equal; field.
  - vm_compute. reflexivity.
Qed.

End Interpolation.

(** ** The heading between two equal waypoints *)

Section Rest.

Local Open Scope float_scope.

Lemma float_of_zero (x : float) (sx : bool) :
  Prim2SF x = S754_zero sx -> x = if sx then neg_zero else zero.
Proof.
  intros Hx. apply Prim2SF_inj. rewrite Hx. destruct sx; reflexivity.
Qed.

Lemma SFeqb_finite_same s1 m1 e1 s2 m2 e2 :
  SFeqb (S754_finite s1 m1 e1) (S754_finite s2 m2 e2) = true ->
  s1 = s2 /\ m1 = m2 /\ e1 = e2.
Proof.
  unfold SFeqb, SFcompare.
  destruct s1, s2; try discriminate;
    destruct (Z.compare_spec e1 e2) as [He| |]; try discriminate;
    destruct (Pos.compare_cont Eq m1 m2) eqn:Hm; try discriminate;
    intros _; apply Pos.compare_eq in Hm; auto.
Qed.

(** Two equal finite numbers have the difference [+0], unless the first is
    [-0] and the second [+0], when it is [-0]. *)
Lemma float_equal_difference (a b : float) :
  is_finite a = true ->
  (b =? a) = true ->
  (b - a = zero /\ fromPosToNegZero a b = false)
  \/ (b - a = neg_zero /\ fromPosToNegZero a b = true).
Proof.
  intros Ha Heq. rewrite FloatAxioms.eqb_spec in Heq.
  destruct (float_finite_cases a Ha) as [[sa Ea]|(sa & ma & ea & Ea)];
    rewrite Ea in Heq.
  - destruct (Prim2SF b) as [sb|sb| |sb mb eb] eqn:Eb;
      try (destruct sb; discriminate); try discriminate.
    apply float_of_zero in Ea, Eb. subst a b.
    destruct sa, sb; vm_compute; auto.
  - destruct (Prim2SF b) as [sb|sb| |sb mb eb] eqn:Eb;
      try (destruct sa; discriminate); try (destruct sb; discriminate);
      try discriminate.
    apply SFeqb_finite_same in Heq as (-> & -> & ->).
    left. split.
    + apply Prim2SF_inj. rewrite sub_spec, Ea, Eb.
      unfold SF64sub, SFsub. rewrite Z.sub_diag. reflexivity.
    + unfold fromPosToNegZero, is_zero at 1.
      rewrite FloatAxioms.eqb_spec, Ea.
      replace (Prim2SF zero) with (S754_zero false) by reflexivity.
      destruct sa; reflexivity.
Qed.

Lemma rotationEffect_sets {num : Type} `{JsNumber num} `{JsMath num}
    (route : list (Waypoint num)) (i : nat) (prev next : Waypoint num)
    (angle : option num) :
  nth_error route i = Some prev ->
  nth_error route (S i) = Some next ->
  rotationEffect true route (S i) angle = Some (getRotationAngle prev next).
Proof.
  intros Hprev Hnext.
  assert (Hlen : (S i < length route)%nat)
    by (apply nth_error_Some; rewrite Hnext; discriminate).
  unfold rotationEffect.
  replace (length route <=? S i)%nat with false
    by (symmetry; apply Nat.leb_gt; exact Hlen).
  simpl negb; simpl orb.
  replace (S i - 1)%nat with i by lia.
  rewrite Hprev, Hnext. reflexivity.
Qed.

(** C3, as the code has it.  Between two consecutive waypoints with equal
    finite coordinates, whatever their timestamps, [getRotationAngle]
    returns zero, never NaN; the one exception in binary64 is a latitude
    that goes from [+0] to [-0], for which it returns [180] or [-180].  The
    rotation effect sets the marker to that value whatever angle it held:
    nothing is carried forward.  Over the reals the value is [0]. *)
Theorem degenerate_heading :
  (forall (prev next : Waypoint float),
      is_finite (lat prev) = true ->
      is_finite (lng prev) = true ->
      (lat next =? lat prev) = true ->
      (lng next =? lng prev) = true ->
      (if fromPosToNegZero (lat prev) (lat next)
       then abs (getRotationAngle prev next) = 180
       else (getRotationAngle prev next =? 0) = true)
      /\ is_nan (getRotationAngle prev next) = false
      /\ forall (route : list (Waypoint float)) (i : nat) (angle : option float),
           nth_error route i = Some prev ->
           nth_error route (S i) = Some next ->
           rotationEffect true route (S i) angle
           = Some (getRotationAngle prev next))
  /\ (forall (prev next : Waypoint R),
        lat next = lat prev ->
        lng next = lng prev ->
        getRotationAngle prev next = 0%R
        /\ forall (route : list (Waypoint R)) (i : nat) (angle : option R),
             nth_error route i = Some prev ->
             nth_error route (S i) = Some next ->
             rotationEffect true route (S i) angle = Some 0%R).
Proof.
  split.
  - intros prev next Hlat Hlng Elat Elng.
    assert (Hh : (if fromPosToNegZero (lat prev) (lat next)
                  then abs (getRotationAngle prev next) = 180
                  else (getRotationAngle prev next =? 0) = true)
                 /\ is_nan (getRotationAngle prev next) = false).
    { unfold getRotationAngle.
      cbn [num_sub num_mul num_div num_of_Z float_JsNumber
           Math_atan2 Math_PI float_JsMath].
      destruct (float_equal_difference Hlat Elat) as [[-> ->]|[-> ->]];
        destruct (float_equal_difference Hlng Elng) as [[-> _]|[-> _]];
        vm_compute; split; reflexivity. }
    destruct Hh as [Hvalue Hnan].
    split; [exact Hvalue|]. split; [exact Hnan|].
    intros route i angle Hprev Hnext.
    apply rotationEffect_sets; assumption.
  - intros prev next Elat Elng.
    assert (Hzero : getRotationAngle prev next = 0%R).
    { unfold getRotationAngle; simpl.
      rewrite Elat, Elng, !Rminus_diag, R_atan2_origin.
      unfold Rdiv; rewrite !Rmult_0_l; reflexivity. }
    split; [exact Hzero|].
    intros route i angle Hprev Hnext.
    rewrite rotationEffect_sets with (prev := prev) (next := next) by assumption.
    rewrite Hzero. reflexivity.
Qed.

End Rest.

(** ** The revised properties on the sample data *)

Local Abbreviation pausedAtEndF := (@samplePausedAtEnd float float_JsNumber).
Local Abbreviation initialF := (@initialState float float_JsNumber).
Local Abbreviation idleStartedF := (@idleStarted float float_JsNumber).
Local Abbreviation idleRouteF := (@idleRoute float float_JsNumber).
Local Abbreviation coastRouteF := (@coastRoute float float_JsNumber).
Local Abbreviation sampleRouteR := (@sampleRoute R R_JsNumber).

Lemma start_always_plays_sample :
  isPlaying (togglePlay pausedAtEndF) = true
  /\ currentIndex (togglePlay pausedAtEndF) = currentIndex pausedAtEndF
  /\ interpolatedPos (togglePlay pausedAtEndF) = interpolatedPos pausedAtEndF
  /\ routeData (togglePlay pausedAtEndF) = routeData pausedAtEndF
  /\ (length (routeData pausedAtEndF) < 2 ->
      interval (togglePlay pausedAtEndF) = None
      /\ tick (togglePlay pausedAtEndF) = togglePlay pausedAtEndF)
  /\ (forall s e,
        nth_error (routeData pausedAtEndF) (currentIndex pausedAtEndF) = Some s ->
        nth_error (routeData pausedAtEndF) (currentIndex pausedAtEndF + 1) = Some e ->
        interval (togglePlay pausedAtEndF)
        = Some {| t_route := routeData pausedAtEndF; t_start := s; t_end := e;
                  t_step := 0 |})
  /\ (currentIndex pausedAtEndF + 2 = length (routeData pausedAtEndF) ->
      interval (togglePlay pausedAtEndF) <> None).
Proof.
  assert (Hp : isPlaying pausedAtEndF = false) by (vm_compute; reflexivity).
  exact (start_always_plays pausedAtEndF Hp).
Defined.

(** C8 refuted in both of its cases.  On the empty route Start turns
    [isPlaying] on.  On the sample route played to its end and paused, the
    index is that of the final segment and the marker is on the last
    waypoint; Start turns [isPlaying] on, arms an interval, and the next
    callback moves the marker. *)
Lemma start_changes_the_state :
  (length (routeData initialF) = 0
   /\ isPlaying initialF = false
   /\ isPlaying (togglePlay initialF) = true)
  /\ (currentIndex pausedAtEndF + 2 = length (routeData pausedAtEndF)
      /\ interpolatedPos pausedAtEndF = PosObj 17.41%float 78.5%float
      /\ isPlaying pausedAtEndF = false
      /\ interval pausedAtEndF = None
      /\ isPlaying (togglePlay pausedAtEndF) = true
      /\ interval (togglePlay pausedAtEndF) <> None
      /\ interpolatedPos (tick (togglePlay pausedAtEndF))
         = PosObj 17.400499999999997%float 78.490499999999997%float).
Proof.
  split; [repeat split; reflexivity|].
  vm_compute. repeat split; try reflexivity. discriminate.
Qed.

Lemma position_interpolation_sample :
  position sampleRouteR 0 10
  = Some (PosObj (lerp (dec 1740 2) (dec 1741 2) (10 / 20))
                 (lerp (dec 7849 2) (dec 7850 2) (10 / 20)))%R
  /\ exists la ln,
       position coastRouteF 0 6 = Some (PosObj la ln)
       /\ Prim2SF la
          = SF64add (Prim2SF 0.2%float)
              (SF64div
                 (SF64mul (SF64sub (Prim2SF 0.9%float) (Prim2SF 0.2%float))
                    (Prim2SF (float_of_Z 6)))
                 (Prim2SF (float_of_Z steps)))
       /\ Prim2SF ln
          = SF64add (Prim2SF 0.3%float)
              (SF64div
                 (SF64mul (SF64sub (Prim2SF 0.9%float) (Prim2SF 0.3%float))
                    (Prim2SF (float_of_Z 6)))
                 (Prim2SF (float_of_Z steps))).
Proof.
  split.
  - assert (Hseg : segment sampleRouteR 0
                   = Some (waypoint (dec 1740 2) (dec 7849 2),
                           waypoint (dec 1741 2) (dec 7850 2))) by reflexivity.
    assert (Hk : (0 <= 10 <= steps)%Z) by (unfold steps; lia).
    exact (proj1 position_interpolation sampleRouteR 0 _ _ 10%Z Hseg Hk).
  - assert (Hseg : segment coastRouteF 0
                   = Some (waypoint 0.2%float 0.3%float, waypoint 0.9%float 0.9%float))
      by (vm_compute; reflexivity).
    exact (proj1 (proj2 (proj2 position_interpolation)) coastRouteF 0 _ _ 6%Z Hseg).
Defined.

(** C4 refuted in binary64: on [(0.2, 0.3), (0.9, 0.9)] the sixth callback
    stores the latitude [0.41] (the double [0.40999999999999998]), while
    the formula of the specification at progress [6 / 20] has the value
    [0.41000000000000003]. *)
Lemma position_is_not_the_formula :
  position coastRouteF 0 6
  = Some (PosObj 0.40999999999999998%float 0.47999999999999998%float)
  /\ lerp 0.2%float 0.9%float (6 / 20)%float = 0.41000000000000003%float
  /\ PrimFloat.eqb 0.40999999999999998%float 0.41000000000000003%float = false.
Proof. vm_compute. repeat split; reflexivity. Qed.

Lemma degenerate_heading_sample :
  (PrimFloat.eqb
     (getRotationAngle
        {| lat := dec 1741 2; lng := dec 7850 2; timestamp := float_of_Z 2000 |}
        {| lat := dec 1741 2; lng := dec 7850 2; timestamp := float_of_Z 3000 |})
     0%float = true)
  /\ PrimFloat.is_nan
       (getRotationAngle
          {| lat := dec 1741 2; lng := dec 7850 2; timestamp := float_of_Z 2000 |}
          {| lat := dec 1741 2; lng := dec 7850 2; timestamp := float_of_Z 3000 |})
     = false
  /\ rotationEffect true idleRouteF 2 (Some 45.000000000010182%float)
     = Some (getRotationAngle
               {| lat := dec 1741 2; lng := dec 7850 2; timestamp := float_of_Z 2000 |}
               {| lat := dec 1741 2; lng := dec 7850 2; timestamp := float_of_Z 3000 |}).
Proof.
  pose (b1 := {| lat := dec (num := float) 1741 2; lng := dec 7850 2;
                 timestamp := float_of_Z 2000 |}).
  pose (b2 := {| lat := dec (num := float) 1741 2; lng := dec 7850 2;
                 timestamp := float_of_Z 3000 |}).
  assert (Hlat : PrimFloat.is_finite (lat b1) = true) by (vm_compute; reflexivity).
  assert (Hlng : PrimFloat.is_finite (lng b1) = true) by (vm_compute; reflexivity).
  assert (Elat : PrimFloat.eqb (lat b2) (lat b1) = true) by (vm_compute; reflexivity).
  assert (Elng : PrimFloat.eqb (lng b2) (lng b1) = true) by (vm_compute; reflexivity).
  assert (Hrest : fromPosToNegZero (lat b1) (lat b2) = false) by (vm_compute; reflexivity).
  pose proof (proj1 degenerate_heading b1 b2 Hlat Hlng Elat Elng) as Hthm.
  rewrite Hrest in Hthm.
  destruct Hthm as (Hvalue & Hnan & Heffect).
  split; [exact Hvalue|]. split; [exact Hnan|].
  apply Heffect; reflexivity.
Defined.

(** C3 refuted: on a route whose second and third records have the same
    coordinates, the index reaches [1] after twenty callbacks and the
    rotation effect turns the marker to [45.00000000001018] degrees; after
    forty the index is [2], the marker is drawn, and the effect turns it to
    [0]: the heading is zero and the previous one is lost.  A latitude
    going from [+0] to [-0] at the same place gives [180]. *)
Lemma heading_lost_at_rest :
  currentIndex (ticks 20 idleStartedF) = 1
  /\ rotationAfter (ticks 20 idleStartedF) None = Some 45.000000000010182%float
  /\ currentIndex (ticks 40 idleStartedF) = 2
  /\ markerRendered (ticks 40 idleStartedF) = true
  /\ rotationAfter (ticks 40 idleStartedF) (Some 45.000000000010182%float)
     = Some 0%float
  /\ getRotationAngle {| lat := 0%float; lng := 5%float; timestamp := 0%float |}
                      {| lat := (-0)%float; lng := 5%float; timestamp := 1%float |}
     = 180%float.
Proof. vm_compute. repeat split; reflexivity. Qed.
